(** * Resilient delimited-text ingestion: an embedding of the three loaders

    The development follows [read_csv.py], [read_csv2.py] and [read_csv3.py]:
    the byte decoder, the delimiter inferencer, the width normaliser shared
    by the two width-forcing loaders, and the fallback chain of
    [robust_read_csv].

    Python values are embedded as follows.
    - [int] is [Z]; the length of a sequence is a [nat].
    - [str] is the list of its Unicode code points, each an [N].
    - [bytes] is a [list byte].
    - A [float] is the rational ([Q]) it denotes. The quotient of two
      integers is rounded to the nearest float ([truediv]) where the
      order of such quotients decides a result ([variance]), and is kept
      exact where one comparison with a literal does ([zero_ratio]).
    - A list is a [list]; subscripts and slice bounds are [Z] and follow
      Python's rules for negative and out-of-range positions.
    - A raised exception is the [Raise] outcome of [res].
    - Functions of the standard library and of pandas that read, decode or
      tokenise ([bytes.decode], [csv.reader], [pandas.read_csv], [re.escape])
      are parameters of the section that uses them. *)

From Stdlib Require Import NArith ZArith QArith Qabs Qpower Lia.
From Stdlib Require Import DecimalString DecimalNat.
From Stdlib.Strings Require Import Byte Ascii String.
From stdpp Require Import base tactics option list numbers strings.

Open Scope Z_scope.

(** Characters are code points; a string is the list of its characters
    and a row the list of its fields. *)
Abbreviation char := N (only parsing).
Abbreviation str := (list N) (only parsing).
Abbreviation row := (list (list N)) (only parsing).

(** ** Outcomes *)

Inductive res (E A : Type) : Type :=
| Return (a : A)
| Raise (e : E).
Arguments Return {E A} a.
Arguments Raise {E A} e.

#[global] Instance res_bind {E} : MBind (res E) := fun A B k c =>
  match c with
  | Return a => k a
  | Raise e => Raise e
  end.

(** An optional value whose absence raises [e]. *)
Definition or_raise {E A} (e : E) (o : option A) : res E A :=
  match o with
  | Some a => Return a
  | None => Raise e
  end.

(** ** The Python built-ins the scripts rely on *)

Module Py.

(** A [str] literal written with ASCII characters. *)
Definition lit (s : string) : str :=
  N_of_ascii <$> list_ascii_of_string s.

(** [str(i)] for a non-negative [int], as used inside an f-string. *)
Definition str_of_nat (n : nat) : str :=
  lit (NilZero.string_of_uint (Nat.to_uint n)).

(** *** Sequences: slices and subscripts *)

(** The position a slice bound [i] denotes in a sequence of length [n]:
    a negative bound counts from the end and stops at the start; a bound
    past the end is cut by [take] and [drop]. *)
Definition slice_bound (n : nat) (i : Z) : nat :=
  if i <? 0 then Z.to_nat (Z.of_nat n + i) else Z.to_nat i.

(** [l[i:]] *)
Definition slice_from {A} (l : list A) (i : Z) : list A :=
  drop (slice_bound (length l) i) l.

(** [l[:i]] *)
Definition slice_upto {A} (l : list A) (i : Z) : list A :=
  take (slice_bound (length l) i) l.

(** The position a subscript [i] denotes, [None] when [l[i]] raises
    [IndexError]. *)
Definition subscript (n : nat) (i : Z) : option nat :=
  if (0 <=? i) && (i <? Z.of_nat n) then Some (Z.to_nat i)
  else if (- Z.of_nat n <=? i) && (i <? 0) then Some (Z.to_nat (Z.of_nat n + i))
  else None.

(** [l[i]] *)
Definition getitem {A} (l : list A) (i : Z) : option A :=
  k ← subscript (length l) i; l !! k.

(** [l[i] = v] *)
Definition setitem {A} (l : list A) (i : Z) (v : A) : option (list A) :=
  k ← subscript (length l) i; Some (<[k:=v]> l).

(** [l.index(x)]: the first position holding [x]; [None] stands for
    [ValueError]. *)
Fixpoint index {A} `{EqDecision A} (x : A) (l : list A) : option nat :=
  match l with
  | [] => None
  | y :: l' => if decide (y = x) then Some 0%nat else S <$> index x l'
  end.

(** [x in l] *)
Definition contains {A} `{EqDecision A} (x : A) (l : list A) : bool :=
  bool_decide (x ∈ l).

(** [[v] * n]: no element when [n] is not positive. *)
Definition times {A} (v : A) (n : Z) : list A := replicate (Z.to_nat n) v.

(** *** Strings *)

(** [sep.join(parts)] *)
Fixpoint join (sep : str) (parts : list str) : str :=
  match parts with
  | [] => []
  | [p] => p
  | p :: rest => p ++ sep ++ join sep rest
  end.

(** [s.rstrip(c)] for a one-character [c]: every trailing [c] is removed. *)
Fixpoint rstrip (c : char) (s : str) : str :=
  match s with
  | [] => []
  | x :: s' =>
      match rstrip c s' with
      | [] => if decide (x = c) then [] else [x]
      | t => x :: t
      end
  end.

(** [s.count(c)] for a one-character [c]. *)
Definition count (c : char) (s : str) : Z :=
  Z.of_nat (length (filter (fun x => x = c) s)).

(** [s.replace(c, t)] for a one-character [c]. *)
Definition replace (c : char) (t : str) (s : str) : str :=
  x ← s; if decide (x = c) then t else [x].

(** [c.isspace()]: the code points Python treats as white space. *)
Definition isspace (c : char) : bool :=
  ((9 <=? c) && (c <=? 13) || (28 <=? c) && (c <=? 32)
   || (c =? 133) || (c =? 160) || (c =? 5760)
   || (8192 <=? c) && (c <=? 8202)
   || (c =? 8232) || (c =? 8233) || (c =? 8239) || (c =? 8287)
   || (c =? 12288))%N.

(** The truth value of [s.strip()]: some character is not white space. *)
Definition strip_nonempty (s : str) : bool :=
  existsb (fun c => negb (isspace c)) s.

(** The line boundaries of [str.splitlines], [\r\n] apart. *)
Definition islinebreak (c : char) : bool :=
  ((10 <=? c) && (c <=? 13) || (28 <=? c) && (c <=? 30)
   || (c =? 133) || (c =? 8232) || (c =? 8233))%N.

(** [s.splitlines(keepends)], with [cur] the line read so far. A carriage
    return followed by a line feed ends one line, not two; text after the
    last boundary is a line of its own when it is not empty. *)
Fixpoint splitlines_from (keepends : bool) (cur : str) (s : str)
  : list str :=
  match s with
  | [] => match cur with [] => [] | _ => [cur] end
  | c :: s' =>
      if islinebreak c then
        match c, s' with
        | 13%N, 10%N :: s'' =>
            (cur ++ (if keepends then [13%N; 10%N] else []))
              :: splitlines_from keepends [] s''
        | _, _ =>
            (cur ++ (if keepends then [c] else []))
              :: splitlines_from keepends [] s'
        end
      else splitlines_from keepends (cur ++ [c]) s'
  end.

Definition splitlines (keepends : bool) (s : str) : list str :=
  splitlines_from keepends [] s.

End Py.

Import Py.

(** ** Exceptions, frames and printed lines *)

(** What a [RuntimeError] of the scripts says. [X] is the type of the
    exceptions that library calls raise. *)
Inductive message (X : Type) : Type :=
| Could_not_read (encodings : list str) (last_err : option X)
| Could_not_decode (encodings : list str) (last_err : option X)
| Could_not_parse (delim : str) (mode_cols : option Z)
    (plain quote_escape : X) (regex_outside_quotes : option X)
    (normalized_text : X).
Arguments Could_not_read {X}.
Arguments Could_not_decode {X}.
Arguments Could_not_parse {X}.

Inductive exn (X : Type) : Type :=
| IndexError
| RaggedFrame
| RuntimeError (msg : message X) (cause : option X)
| Uncaught (x : X).
Arguments IndexError {X}.
Arguments RaggedFrame {X}.
Arguments RuntimeError {X}.
Arguments Uncaught {X}.

(** The attempts a [Could_not_parse] message reports under [Errors:], one
    line each and in this order. *)
Inductive attempt : Type :=
| Plain_read_csv
| Quote_escape_read
| Regex_outside_quotes
| Normalized_text_parse.

(** The [Errors:] lines of a message: the attempt each one names and the
    exception it shows, [None] where the line reads [n/a]. *)
Definition error_lines {X} (msg : message X) : list (attempt * option X) :=
  match msg with
  | Could_not_parse _ _ e1 e2 e3 e4 =>
      [ (Plain_read_csv, Some e1); (Quote_escape_read, Some e2);
        (Regex_outside_quotes, e3); (Normalized_text_parse, Some e4) ]
  | _ => []
  end.

(** A frame of strings: the column labels and the rows of cells. *)
Record DataFrame : Type := {
  columns : row;
  data : list row
}.

(** [pd.DataFrame()] *)
Definition empty_frame : DataFrame := {| columns := []; data := [] |}.

(** [pd.DataFrame(fixed_rows, columns=header)]. The frame is built when
    every row is as wide as the header (always so when there is no row).
    On other data pandas rejects a row wider than the header and fills
    narrower rows with missing values; the model does not follow it there
    and stops with [RaggedFrame]. *)
Definition pd_DataFrame {X} (fixed_rows : list row)
    (header : row) : res (exn X) DataFrame :=
  if forallb (fun r => Nat.eqb (length r) (length header)) fixed_rows
  then Return {| columns := header; data := fixed_rows |}
  else Raise RaggedFrame.

(** The lines the loaders print before they return. *)
Inductive printed : Type :=
| Loaded (rows : nat) (expected_cols : Z) (delim : option str)
| Merged_rows (expected_cols : Z) (long_rows : Z)
| Padded_rows (expected_cols : Z) (short_rows : Z).

(** ** Width normalisation

    [load_csv_force_width] (read_csv2.py, from [if not rows]) and
    [load_csv_force_width_resilient] (read_csv3.py, from [if not rows]) run
    the same statements on the parsed rows; they are embedded once. *)

Section Width.
Context {X : Type}.

(** The header brought to [expected_cols] names: placeholders are appended
    to a short header, a long header is cut. *)
Definition normalize_header (header : row) (expected_cols : Z)
  : row :=
  if Z.of_nat (length header) <? expected_cols then
    header ++
      ((fun i => lit "__placeholder_" ++ str_of_nat i) <$>
         seq 0 (Z.to_nat (expected_cols - Z.of_nat (length header))))
  else if expected_cols <? Z.of_nat (length header) then
    slice_upto header expected_cols
  else header.

(** [target_idx]: the position of [merge_into] in the header when it is a
    non-empty name found there, the last column otherwise. *)
Definition target_index (merge_into : option str)
    (header : row) (expected_cols : Z) : Z :=
  match merge_into with
  | Some m =>
      if bool_decide (m ≠ []) && contains m header
      then from_option Z.of_nat (expected_cols - 1) (index m header)
      else expected_cols - 1
  | None => expected_cols - 1
  end.

(** [kept[i] = (kept[i] + ',' + ','.join(overflow)).rstrip(',')] *)
Definition merge_at (kept : row) (i : Z)
    (overflow : row) : res (exn X) (list str) :=
  old ← or_raise IndexError (getitem kept i);
  or_raise IndexError
    (setitem kept i (rstrip 44%N (old ++ lit "," ++ join (lit ",") overflow))).

(** The branch of a row with more than [expected_cols] fields. *)
Definition merge_overflow (expected_cols target_idx : Z) (r : row)
  : res (exn X) row :=
  let overflow := slice_from r (expected_cols - 1) in
  let kept := slice_upto r expected_cols in
  if target_idx <? expected_cols - 1
  then merge_at kept target_idx overflow
  else merge_at kept (-1) overflow.

(** The variables the loop over the body updates. *)
Record tally : Type := {
  fixed_rows : list row;
  long_rows : Z;
  short_rows : Z
}.

(** One turn of the loop. *)
Definition fix_row (expected_cols target_idx : Z) (st : tally)
    (r : row) : res (exn X) tally :=
  if Z.of_nat (length r) =? expected_cols then
    Return {| fixed_rows := fixed_rows st ++ [r];
              long_rows := long_rows st;
              short_rows := short_rows st |}
  else if expected_cols <? Z.of_nat (length r) then
    kept ← merge_overflow expected_cols target_idx r;
    Return {| fixed_rows := fixed_rows st ++ [kept];
              long_rows := long_rows st + 1;
              short_rows := short_rows st |}
  else
    let kept := r ++ times [] (expected_cols - Z.of_nat (length r)) in
    Return {| fixed_rows := fixed_rows st ++ [kept];
              long_rows := long_rows st;
              short_rows := short_rows st + 1 |}.

(** [for r in body: ...] *)
Fixpoint fix_rows (expected_cols target_idx : Z) (st : tally)
    (body : list row) : res (exn X) tally :=
  match body with
  | [] => Return st
  | r :: body' =>
      st' ← fix_row expected_cols target_idx st r;
      fix_rows expected_cols target_idx st' body'
  end.

(** From [if not rows] to [return df]. [delim] is the delimiter the
    resilient loader names in its first printed line. *)
Definition force_width (rows : list row) (expected_cols : Z)
    (merge_into : option str) (delim : option str)
  : res (exn X) (DataFrame * list printed) :=
  match rows with
  | [] => Return (empty_frame, [])
  | header :: body =>
      let header := normalize_header header expected_cols in
      let target_idx := target_index merge_into header expected_cols in
      st ← fix_rows expected_cols target_idx
             {| fixed_rows := []; long_rows := 0; short_rows := 0 |} body;
      df ← pd_DataFrame (fixed_rows st) header;
      Return (df,
              [Loaded (length (data df)) expected_cols delim]
              ++ (if long_rows st =? 0 then []
                  else [Merged_rows expected_cols (long_rows st)])
              ++ (if short_rows st =? 0 then []
                  else [Padded_rows expected_cols (short_rows st)]))
  end.

End Width.

(** ** Byte decoder ([read_csv3.py]) *)

#[global] Instance byte_eq_dec : EqDecision byte := Byte.byte_eq_dec.

(** [a < b] on rationals, as a boolean. *)
Definition Qlt_bool (a b : Q) : bool := negb (Qle_bool b a).

(** [raw.startswith(prefix)] *)
Definition startswith (prefix raw : list byte) : bool :=
  bool_decide (take (length prefix) raw = prefix).

(** [sample.count(b'\x00')] *)
Definition count_nul (sample : list byte) : Z :=
  Z.of_nat (length (filter (fun b => b = x00) sample)).

(** [zero_ratio]. Python holds it as a float: the correctly rounded
    quotient of the two integers. The only comparison made is with [0.1]
    on a sample of 200 bytes; 20/200 rounds to the float the literal
    [0.1] denotes and rounding is monotone, so the comparison has the
    value of the exact one. *)
Definition zero_ratio (sample : list byte) : Q :=
  inject_Z (count_nul sample) / inject_Z (Z.of_nat (length sample)).

Definition _looks_utf16 (raw : list byte) : bool :=
  if startswith [xff; xfe] raw || startswith [xfe; xff] raw then true
  else if (200 <=? Z.of_nat (length raw)) then
    let sample := slice_upto raw 200 in
    Qlt_bool (1 # 10) (zero_ratio sample)
  else false.

Definition default_encodings : list str :=
  [lit "utf-8-sig"; lit "utf-8"; lit "cp1252"; lit "latin1"].

Section Decoder.
Context {X : Type}.

(** [raw.decode(encoding)] when [replacing] is [false],
    [raw.decode(encoding, errors='replace')] when it is [true]. *)
Variable bytes_decode : str -> bool -> list byte -> res X str.

(** [for enc in encodings: ...] and the [raise] after it; [all] is the
    whole tuple, which the message names. *)
Fixpoint decode_first (all : list str) (raw : list byte)
    (encodings : list str) (last_err : option X)
  : res (exn X) str :=
  match encodings with
  | [] => Raise (RuntimeError (Could_not_decode all last_err) None)
  | enc :: encodings' =>
      match bytes_decode enc true raw with
      | Return text => Return (replace 0%N [] text)
      | Raise e => decode_first all raw encodings' (Some e)
      end
  end.

(** [raw] is what [f.read()] returned for the file at [path]. *)
Definition _decode_text_safely (raw : list byte)
    (encodings : list str) : res (exn X) str :=
  let common := decode_first encodings raw encodings None in
  if _looks_utf16 raw then
    match bytes_decode (lit "utf-16") false raw with
    | Return text => Return (replace 0%N [] text)
    | Raise _ => common
    end
  else common.

(** The function from its first line. [read] is the outcome of
    [with open(path, 'rb') as f: raw = f.read()]; the two lines stand
    before the first [try], so what they raise leaves the function as it
    is. *)
Definition _decode_text_safely_path (read : res X (list byte))
    (encodings : list str) : res (exn X) str :=
  match read with
  | Return raw => _decode_text_safely raw encodings
  | Raise x => Raise (Uncaught x)
  end.

End Decoder.

(** ** Delimiter inferencer ([read_csv.py], [read_csv3.py]) *)

(** The candidates are one-character strings at every call; a candidate is
    embedded as its character. *)
Definition default_candidates : list char := [44; 59; 124; 9]%N.

(** [cnt[c] += 1] on a [Counter], whose keys stay in the order of their
    first occurrence. *)
Fixpoint counter_add (c : Z) (cnt : list (Z * nat)) : list (Z * nat) :=
  match cnt with
  | [] => [(c, 1%nat)]
  | (k, n) :: cnt' =>
      if decide (k = c) then (k, S n) :: cnt' else (k, n) :: counter_add c cnt'
  end.

(** [Counter(counts)] *)
Definition Counter (counts : list Z) : list (Z * nat) :=
  foldl (fun cnt c => counter_add c cnt) [] counts.

(** The first item of greatest multiplicity among [best] and [items]. *)
Fixpoint first_max (best : Z * nat) (items : list (Z * nat)) : Z * nat :=
  match items with
  | [] => best
  | item :: items' =>
      first_max (if (best.2 <? item.2)%nat then item else best) items'
  end.

(** [Counter(counts).most_common(1)[0][0]], asked only of a non-empty
    [counts]. *)
Definition mode_of (counts : list Z) : Z :=
  match Counter counts with
  | [] => 0
  | item :: items => (first_max item items).1
  end.

(** The integer nearest to [num / den], the even one when two are as
    near; asked for [0 < den]. *)
Definition round_half_even (num den : Z) : Z :=
  let q := num / den in
  let r := num mod den in
  if 2 * r <? den then q
  else if den <? 2 * r then q + 1
  else if Z.even q then q else q + 1.

(** The exponent [e] of the last of 53 significant bits of [a / b]:
    [2^52 <= a / (b * 2^e) < 2^53]. *)
Definition ulp_exponent (a b : Z) : Z :=
  let la := Z.log2 a in
  let lb := Z.log2 b in
  (if b * 2 ^ la <=? a * 2 ^ lb then la - lb else la - lb - 1) - 52.

(** [a / b] on two [int]s with [0 <= a] and [0 < b]: the float nearest
    to the quotient, that is the quotient rounded to 53 significant bits,
    to the even significand when two floats are as near. The exponent is
    not bounded here. A Python sequence has fewer than [2^63] items, so a
    quotient of the scripts that is not zero lies between [2^-63] and
    [2^127], where a float has its 53 bits and the division neither
    overflows nor underflows. *)
Definition truediv (a b : Z) : Q :=
  if a =? 0 then 0%Q
  else
    let e := ulp_exponent a b in
    if 0 <=? e then inject_Z (round_half_even a (b * 2 ^ e) * 2 ^ e)
    else round_half_even (a * 2 ^ (- e)) b # Z.to_pos (2 ^ (- e)).

(** [sum((c - mode)**2 for c in counts) / max(len(counts), 1)]: the sum
    and the length are [int]s, their quotient is a float. *)
Definition variance (mode : Z) (counts : list Z) : Q :=
  truediv (foldr Z.add 0 ((fun c => (c - mode) ^ 2) <$> counts))
          (Z.max (Z.of_nat (length counts)) 1).

(** [scores[d] = v] on a [dict], whose keys stay in insertion order. *)
Fixpoint dict_set (d : char) (v : Z * Q) (scores : list (char * (Z * Q)))
  : list (char * (Z * Q)) :=
  match scores with
  | [] => [(d, v)]
  | (k, w) :: scores' =>
      if decide (k = d) then (k, v) :: scores'
      else (k, w) :: dict_set d v scores'
  end.

(** The loop body shared by the two inferencers, from [if not counts]. *)
Definition add_score (counts : list Z) (d : char)
    (scores : list (char * (Z * Q))) : list (char * (Z * Q)) :=
  if bool_decide (counts = []) then scores
  else
    let mode := mode_of counts in
    let variance := variance mode counts in
    dict_set d (mode, - variance)%Q scores.

(** [(mode, -variance)] tuples under Python's [<]. *)
Definition key_lt (a b : Z * Q) : bool :=
  (a.1 <? b.1) || ((a.1 =? b.1) && Qlt_bool a.2 b.2).

(** [sorted(items, key=lambda kv: (kv[1][0], kv[1][1]), reverse=True)]:
    greatest key first, items of equal key in their original order. *)
Fixpoint insert_desc (x : char * (Z * Q)) (l : list (char * (Z * Q)))
  : list (char * (Z * Q)) :=
  match l with
  | [] => [x]
  | y :: l' => if key_lt x.2 y.2 then y :: insert_desc x l' else x :: l
  end.

Definition sorted_reverse (items : list (char * (Z * Q)))
  : list (char * (Z * Q)) :=
  foldr insert_desc [] items.

(** [read_csv.py]; [None] is Python's [None]. *)
Definition _detect_delimiter (sample_lines : list str)
    (candidates : list char) : option char :=
  let scores :=
    foldl (fun scores d =>
             let counts :=
               count d
               <$> filter (fun line => strip_nonempty line) sample_lines in
             add_score counts d scores)
          [] candidates in
  match scores with
  | [] => None
  | _ => fst <$> head (sorted_reverse scores)
  end.

(** [read_csv3.py]. The sorted list of a dictionary that is not empty has
    a first item; the comma of the last line is never used. *)
Definition _detect_delim_from_text (text : str) (candidates : list char)
  : char :=
  let lines :=
    filter (fun ln => strip_nonempty ln)
      (slice_upto (splitlines false text) 200) in
  let scores :=
    foldl (fun scores d =>
             let counts := count d <$> lines in
             add_score counts d scores)
          [] candidates in
  match scores with
  | [] => 44%N
  | _ => from_option fst 44%N (head (sorted_reverse scores))
  end.

(** ** The fallback chain of [robust_read_csv] ([read_csv.py]) *)

(** The double quote character. *)
Definition dquote : char := 34%N.

(** The look-ahead every entry of [regex_sep] ends with: an even number
    of double quotes up to the end of the line. *)
Definition outside_quotes : str :=
  lit "(?=(?:[^" ++ [dquote] ++ lit "]*" ++ [dquote] ++ lit "[^" ++ [dquote]
  ++ lit "]*" ++ [dquote] ++ lit ")*[^" ++ [dquote] ++ lit "]*$)".

(** The dictionary [regex_sep] is looked up in. *)
Definition regex_table : list (char * str) :=
  [ (44%N, lit "," ++ outside_quotes);
    (59%N, lit ";" ++ outside_quotes);
    (124%N, lit "\|" ++ outside_quotes);
    (9%N, lit "\t" ++ outside_quotes) ].

(** [dict.get(delim, None)] *)
Fixpoint dict_get (delim : char) (table : list (char * str)) : option str :=
  match table with
  | [] => None
  | (k, v) :: table' => if decide (k = delim) then Some v else dict_get delim table'
  end.

(** The nested function of step 6: curly quotes become straight ones, and
    on a line with an odd number of double quotes every double quote
    becomes two apostrophes. *)
Definition normalize_text (text : str) : str :=
  let text :=
    replace 8217%N (lit "'")
      (replace 8216%N (lit "'")
         (replace 8221%N [dquote] (replace 8220%N [dquote] text))) in
  let fixed_lines :=
    (fun ln =>
       if count dquote ln mod 2 =? 1 then replace dquote (lit "''") ln else ln)
    <$> splitlines true text in
  concat fixed_lines.

(** What [pandas.read_csv] is given to read. *)
Inductive source : Type :=
| Path
| StringIO (text : str).

(** The keyword arguments of a call besides [sep]; all calls pass
    [engine='python', dtype=str]. *)
Inductive keywords : Type :=
| Defaults
| Quote_escape
| Header_infer.

Section Robust.
Context {X F : Type}.

(** [pd.read_csv(src, sep=sep, ...)] on the file at [path] or on a text. *)
Variable pd_read_csv : source -> str -> keywords -> res X F.
(** [open(path, 'r', encoding=preferred_encoding, errors='replace')] and
    [f.read()]. *)
Variable read_text : res X str.
(** [re.escape] *)
Variable re_escape : str -> str.

(** [head_lines] is the first component of [_read_head(path)]. An
    exception object counts as true in [if third_err]. *)
Definition robust_read_csv (head_lines : list str) : res (exn X) F :=
  let delim := default 44%N (_detect_delimiter head_lines default_candidates) in
  let counts :=
    count delim <$> filter (fun ln => strip_nonempty ln) head_lines in
  let mode_cols :=
    if bool_decide (counts = []) then None else Some (mode_of counts) in
  match pd_read_csv Path [delim] Defaults with
  | Return df => Return df
  | Raise first_err =>
  match pd_read_csv Path [delim] Quote_escape with
  | Return df => Return df
  | Raise second_err =>
  let regex_sep := dict_get delim regex_table in
  let third :=
    match regex_sep with
    | Some sep =>
        match pd_read_csv Path sep Header_infer with
        | Return df => Return df
        | Raise e3 => Raise (Some e3)
        end
    | None => Raise None
    end in
  match third with
  | Return df => Return df
  | Raise third_err =>
  let fourth :=
    raw ← read_text;
    let fixed := normalize_text raw in
    let regex_sep :=
      match regex_sep with
      | None => re_escape [delim] ++ outside_quotes
      | Some sep => sep
      end in
    pd_read_csv (StringIO fixed) regex_sep Defaults in
  match fourth with
  | Return df => Return df
  | Raise e4 =>
      Raise (RuntimeError
               (Could_not_parse [delim] mode_cols first_err second_err
                  third_err e4)
               (Some e4))
  end end end end.

End Robust.

(** ** The two width-forcing loaders *)

Section Loaders.
Context {X : Type}.

(** Opening the file at [path] with [encoding=enc, errors='replace'] and
    reading every record with [csv.reader] (comma, double quote,
    backslash escape). *)
Variable read_rows : str -> res X (list row).

(** [for enc in encoding_try: ... else: raise] *)
Fixpoint read_first (all : list str) (encoding_try : list str)
    (last_err : option X) : res (exn X) (list row) :=
  match encoding_try with
  | [] => Raise (RuntimeError (Could_not_read all last_err) None)
  | enc :: encoding_try' =>
      match read_rows enc with
      | Return rows => Return rows
      | Raise e => read_first all encoding_try' (Some e)
      end
  end.

(** [read_csv2.py] *)
Definition load_csv_force_width (expected_cols : Z)
    (merge_into : option str) (encoding_try : list str)
  : res (exn X) (DataFrame * list printed) :=
  rows ← read_first encoding_try encoding_try None;
  force_width rows expected_cols merge_into None.

Variable bytes_decode : str -> bool -> list byte -> res X str.
(** [list(csv.reader(io.StringIO(text), delimiter=delim, ...))] *)
Variable csv_reader : str -> str -> res X (list row).

(** [read_csv3.py]; [raw] is the content of the file at [path]. *)
Definition load_csv_force_width_resilient (raw : list byte)
    (expected_cols : Z) (merge_into : option str)
    (delimiter : option str) : res (exn X) (DataFrame * list printed) :=
  text ← _decode_text_safely bytes_decode raw default_encodings;
  let delim :=
    match delimiter with
    | Some (c :: d) => c :: d
    | _ => [_detect_delim_from_text text default_candidates]
    end in
  rows ← match csv_reader text delim with
         | Return rows => Return rows
         | Raise e => Raise (Uncaught e)
         end;
  force_width rows expected_cols merge_into (Some delim).

End Loaders.

(** ** Page processing ([process_multipage_pdf.py]) *)

Section Pages.
Context {P : Type}.

(** [page.rotate(angle)] of PyPDF2, as the page it leaves behind. *)
Variable rotate : Z -> P -> P.

(** Rotates the pages of odd index (the second, fourth, ... page). *)
Definition example_page_op (page : P) (idx : Z) : P :=
  if idx mod 2 =? 1 then rotate 90 page else page.

(** [for i, page in enumerate(reader.pages): ...], with [i] the index the
    enumeration has reached and [writer] the pages added so far. *)
Fixpoint add_pages (page_fn : P -> Z -> P) (i : Z) (pages writer : list P)
  : list P :=
  match pages with
  | [] => writer
  | page :: pages' =>
      let processed_page := page_fn page i in
      add_pages page_fn (i + 1) pages' (writer ++ [processed_page])
  end.

(** [pages] are the pages of the file at [input_path]; the result is the
    pages written to [output_path]. *)
Definition process_pdf_pages (pages : list P) (page_fn : P -> Z -> P)
  : list P :=
  add_pages page_fn 0 pages [].

End Pages.

(** ** Vocabulary of the statements *)

(** The row one turn of the loop appends for [r] when the merge column
    is at position [p] and the width is at least one. *)
Definition reshaped (expected_cols : Z) (p : nat) (r : row) : row :=
  if Z.of_nat (length r) =? expected_cols then r
  else if expected_cols <? Z.of_nat (length r) then
    <[p := rstrip 44%N
             (default [] (r !! p) ++ lit "," ++
              join (lit ",") (drop (Z.to_nat (expected_cols - 1)) r))]>
      (take (Z.to_nat expected_cols) r)
  else r ++ replicate (Z.to_nat expected_cols - length r)%nat [].

(** The numbers of body rows longer and shorter than the width. *)
Definition count_long (expected_cols : Z) (body : list row) : Z :=
  Z.of_nat (length (filter (fun r => expected_cols < Z.of_nat (length r)) body)).

Definition count_short (expected_cols : Z) (body : list row) : Z :=
  Z.of_nat (length (filter (fun r => Z.of_nat (length r) < expected_cols) body)).

(** The lines an inferencer counts in: those [strip()] leaves something
    of. *)
Definition nonblank (lines : list str) : list str :=
  filter (fun ln => strip_nonempty ln) lines.

(** The lines [_detect_delim_from_text] counts in. *)
Definition sampled (text : str) : list str :=
  nonblank (slice_upto (splitlines false text) 200).

(** [a <= b] on [(mode, -variance)] tuples. *)
Definition key_le (a b : Z * Q) : Prop :=
  a.1 < b.1 \/ (a.1 = b.1 /\ (a.2 <= b.2)%Q).

(** The value the loop stores under candidate [d] when the counts are
    taken over [lines]. *)
Definition score (lines : list str) (d : char) : Z * Q :=
  let counts := count d <$> lines in
  (mode_of counts, (- variance (mode_of counts) counts)%Q).

(** The dictionary the loop over the candidates builds. *)
Definition all_scores (lines : list str) (candidates : list char)
  : list (char * (Z * Q)) :=
  foldl (fun scores d => add_score (count d <$> lines) d scores) [] candidates.

(** [d] is the first candidate of greatest score: the candidates before
    it score less, those after it do not score more. *)
Definition first_best (lines : list str) (candidates : list char) (d : char)
  : Prop :=
  exists pre post,
    candidates = pre ++ d :: post /\
    (forall d', d' ∈ pre -> key_lt (score lines d') (score lines d) = true) /\
    (forall d', d' ∈ post -> key_le (score lines d') (score lines d)).

(** How often [c] occurs among the counts. *)
Definition occurrences (c : Z) (counts : list Z) : nat :=
  length (filter (fun x => x = c) counts).

(** The number a [Counter] holds for [k], 0 when [k] is not a key. *)
Fixpoint multiplicity (k : Z) (cnt : list (Z * nat)) : nat :=
  match cnt with
  | [] => 0
  | (k', n) :: cnt' => if decide (k' = k) then n else multiplicity k cnt'
  end.

(** A stretch of text without a line boundary. *)
Definition body_ok (l : str) : Prop :=
  Forall (fun c => islinebreak c = false) l.

(** [term] ends a line when [rest] follows it: it is a carriage return
    and a line feed, or one boundary character that is not a carriage
    return with a line feed after it. *)
Definition ends_line (term rest : str) : Prop :=
  term = [13%N; 10%N] \/
  exists c, term = [c] /\ islinebreak c = true /\
            ~ (c = 13%N /\ head rest = Some 10%N).

(** What [normalize_text] does to one line. *)
Definition fix_line (ln : str) : str :=
  if count dquote ln mod 2 =? 1 then replace dquote (lit "''") ln else ln.

(** The four replacements of curly quotes, in the order of the source. *)
Definition straighten (text : str) : str :=
  replace 8217%N (lit "'")
    (replace 8216%N (lit "'")
       (replace 8221%N [dquote] (replace 8220%N [dquote] text))).

(** ** Inputs for the concrete instances *)

(** A loader whose file always reads as the given rows. *)
Definition reads (rows : list row)
  : str -> res unit (list row) :=
  fun _ => Return rows.

Definition ragged_rows : list row :=
  [ [lit "h1"; lit "h2"; lit "h3"];
    [lit "a"; lit "b"; lit "c"; lit "d"];
    [lit "a"];
    [lit "a"; lit "b"; lit "c"] ].

(** A codec that knows Latin-1 only: every byte is the character of the
    same number. *)
Definition latin1_only : str -> bool -> list byte -> res unit str :=
  fun enc _ raw =>
    if decide (enc = lit "latin1") then Return (Byte.to_N <$> raw)
    else Raise tt.

(** A [pandas.read_csv] on which every attempt fails. *)
Definition always_fails : source -> str -> keywords -> res unit Empty_set :=
  fun _ _ _ => Raise tt.

(** Refutes a membership between closed terms. *)
Ltac refute_elem H :=
  exfalso; revert H; apply (proj1 (bool_decide_eq_false _));
  vm_compute; reflexivity.

(** * Properties *)

(** ** Slices and subscripts *)

Section Sequences.
Context {A : Type}.
Implicit Types l : list A.

Lemma slice_upto_take l (i : Z) :
  0 <= i -> slice_upto l i = take (Z.to_nat i) l.
Proof.
  intros Hi. unfold slice_upto, slice_bound.
  destruct (Z.ltb_spec i 0); [lia | reflexivity].
Qed.

Lemma slice_from_drop l (i : Z) :
  0 <= i -> slice_from l i = drop (Z.to_nat i) l.
Proof.
  intros Hi. unfold slice_from, slice_bound.
  destruct (Z.ltb_spec i 0); [lia | reflexivity].
Qed.

Lemma subscript_lt (n k : nat) (i : Z) :
  subscript n i = Some k -> (k < n)%nat.
Proof.
  unfold subscript. intros H.
  destruct (Z.leb_spec 0 i), (Z.ltb_spec i (Z.of_nat n)); simpl in H;
    try (injection H as <-; lia);
    destruct (Z.leb_spec (- Z.of_nat n) i), (Z.ltb_spec i 0); simpl in H;
    try discriminate; injection H as <-; lia.
Qed.

Lemma subscript_nonneg (n : nat) (i : Z) :
  0 <= i < Z.of_nat n -> subscript n i = Some (Z.to_nat i).
Proof.
  intros Hi. unfold subscript.
  destruct (Z.leb_spec 0 i), (Z.ltb_spec i (Z.of_nat n)); simpl;
    lia || reflexivity.
Qed.

Lemma subscript_last (n : nat) :
  (0 < n)%nat -> subscript n (-1) = Some (n - 1)%nat.
Proof.
  intros Hn. unfold subscript. simpl.
  destruct (Z.leb_spec (- Z.of_nat n) (-1)); simpl; [f_equal; lia | lia].
Qed.

Lemma subscript_empty (i : Z) : subscript 0 i = None.
Proof.
  unfold subscript.
  destruct (Z.leb_spec 0 i), (Z.ltb_spec i (Z.of_nat 0)); simpl; try lia;
    destruct (Z.leb_spec (- Z.of_nat 0) i), (Z.ltb_spec i 0); simpl;
    lia || reflexivity.
Qed.

End Sequences.

(** ** Width normalisation *)

Section WidthFacts.
Context {X : Type}.
Implicit Types (r kept overflow header : row) (st : tally).
Implicit Types (body : list row) (expected_cols target_idx : Z).

Lemma normalize_header_length header expected_cols :
  0 <= expected_cols ->
  Z.of_nat (length (normalize_header header expected_cols)) = expected_cols.
Proof.
  intros Hec. unfold normalize_header.
  destruct (Z.ltb_spec (Z.of_nat (length header)) expected_cols).
  - rewrite length_app, length_fmap, length_seq. lia.
  - destruct (Z.ltb_spec expected_cols (Z.of_nat (length header))).
    + rewrite slice_upto_take by done. rewrite length_take. lia.
    + lia.
Qed.

Lemma normalize_header_exact header expected_cols :
  Z.of_nat (length header) = expected_cols ->
  normalize_header header expected_cols = header.
Proof.
  intros <-. unfold normalize_header.
  rewrite !Z.ltb_irrefl. reflexivity.
Qed.

Lemma index_lt {B} `{EqDecision B} (x : B) (l : list B) (i : nat) :
  index x l = Some i -> (i < length l)%nat.
Proof.
  revert i. induction l as [|y l IH]; intros i; simpl; [done|].
  case_decide.
  - intros [= <-]. lia.
  - destruct (index x l) as [j|]; simpl; [|done].
    intros [= <-]. specialize (IH j eq_refl). lia.
Qed.

Lemma target_index_range merge_into header expected_cols :
  1 <= expected_cols ->
  Z.of_nat (length header) = expected_cols ->
  0 <= target_index merge_into header expected_cols <= expected_cols - 1.
Proof.
  intros Hec Hlen. unfold target_index.
  destruct merge_into as [m|]; [|lia].
  destruct (bool_decide (m ≠ []) && contains m header); [|lia].
  destruct (index m header) as [i|] eqn:Hi; simpl; [|lia].
  apply index_lt in Hi. lia.
Qed.

Lemma merge_at_returns kept overflow (i : Z) (k : nat) :
  subscript (length kept) i = Some k ->
  exists old,
    kept !! k = Some old /\
    merge_at (X:=X) kept i overflow =
      Return (<[k := rstrip 44%N (old ++ lit "," ++ join (lit ",") overflow)]>
                kept).
Proof.
  intros Hk. pose proof (subscript_lt _ _ _ Hk) as Hlt.
  destruct (lookup_lt_is_Some_2 kept k Hlt) as [old Hold].
  exists old. split; [done|].
  unfold merge_at, getitem, setitem. rewrite Hk. simpl. rewrite Hold.
  reflexivity.
Qed.

Lemma merge_overflow_returns expected_cols target_idx r :
  1 <= expected_cols < Z.of_nat (length r) ->
  0 <= target_idx <= expected_cols - 1 ->
  exists kept,
    merge_overflow (X:=X) expected_cols target_idx r = Return kept /\
    Z.of_nat (length kept) = expected_cols.
Proof.
  intros Hec Hti. unfold merge_overflow.
  rewrite slice_upto_take by lia.
  assert (Hlen : length (take (Z.to_nat expected_cols) r)
                 = Z.to_nat expected_cols)
    by (rewrite length_take; lia).
  destruct (Z.ltb_spec target_idx (expected_cols - 1)).
  - destruct (merge_at_returns (take (Z.to_nat expected_cols) r)
                (slice_from r (expected_cols - 1)) target_idx
                (Z.to_nat target_idx))
      as (old & _ & ->).
    { apply subscript_nonneg. lia. }
    eexists. split; [done|]. rewrite length_insert. lia.
  - destruct (merge_at_returns (take (Z.to_nat expected_cols) r)
                (slice_from r (expected_cols - 1)) (-1)
                (length (take (Z.to_nat expected_cols) r) - 1)%nat)
      as (old & _ & ->).
    { apply subscript_last. lia. }
    eexists. split; [done|]. rewrite length_insert. lia.
Qed.

(** A row of the expected width is appended as it is. *)
Lemma fix_row_exact expected_cols target_idx st r :
  Z.of_nat (length r) = expected_cols ->
  fix_row (X:=X) expected_cols target_idx st r =
    Return {| fixed_rows := fixed_rows st ++ [r];
              long_rows := long_rows st;
              short_rows := short_rows st |}.
Proof.
  intros Hr. unfold fix_row.
  destruct (Z.eqb_spec (Z.of_nat (length r)) expected_cols); [done | lia].
Qed.

(** A shorter row is appended with empty fields up to the width. *)
Lemma fix_row_short expected_cols target_idx st r :
  Z.of_nat (length r) < expected_cols ->
  fix_row (X:=X) expected_cols target_idx st r =
    Return {| fixed_rows :=
                fixed_rows st
                ++ [r ++ replicate (Z.to_nat expected_cols - length r)%nat []];
              long_rows := long_rows st;
              short_rows := short_rows st + 1 |}.
Proof.
  intros Hr. unfold fix_row, times.
  destruct (Z.eqb_spec (Z.of_nat (length r)) expected_cols); [lia|].
  destruct (Z.ltb_spec expected_cols (Z.of_nat (length r))); [lia|].
  replace (Z.to_nat (expected_cols - Z.of_nat (length r)))
    with (Z.to_nat expected_cols - length r)%nat by lia.
  reflexivity.
Qed.

(** A longer row is appended cut to the width, and counted. *)
Lemma fix_row_long expected_cols target_idx st r :
  1 <= expected_cols < Z.of_nat (length r) ->
  0 <= target_idx <= expected_cols - 1 ->
  exists kept,
    fix_row (X:=X) expected_cols target_idx st r =
      Return {| fixed_rows := fixed_rows st ++ [kept];
                long_rows := long_rows st + 1;
                short_rows := short_rows st |} /\
    Z.of_nat (length kept) = expected_cols.
Proof.
  intros Hec Hti.
  destruct (merge_overflow_returns expected_cols target_idx r Hec Hti)
    as (kept & Hkept & Hlen).
  exists kept. split; [|done]. unfold fix_row.
  destruct (Z.eqb_spec (Z.of_nat (length r)) expected_cols); [lia|].
  destruct (Z.ltb_spec expected_cols (Z.of_nat (length r))); [|lia].
  rewrite Hkept. reflexivity.
Qed.

(** Every turn of the loop appends exactly one row of the expected
    width. *)
Lemma fix_row_appends expected_cols target_idx st r :
  1 <= expected_cols ->
  0 <= target_idx <= expected_cols - 1 ->
  exists st' kept,
    fix_row (X:=X) expected_cols target_idx st r = Return st' /\
    fixed_rows st' = fixed_rows st ++ [kept] /\
    Z.of_nat (length kept) = expected_cols.
Proof.
  intros Hec Hti.
  destruct (Z.lt_trichotomy (Z.of_nat (length r)) expected_cols)
    as [Hr|[Hr|Hr]].
  - eexists _, _. split; [by apply fix_row_short|]. simpl. split; [done|].
    rewrite length_app, length_replicate. lia.
  - eexists _, _. split; [by apply fix_row_exact|]. done.
  - destruct (fix_row_long expected_cols target_idx st r) as (kept & -> & Hlen);
      [lia | done |].
    eexists _, _. split; [done|]. done.
Qed.

Lemma fix_rows_appends expected_cols target_idx body : forall st,
  1 <= expected_cols ->
  0 <= target_idx <= expected_cols - 1 ->
  exists st' new,
    fix_rows (X:=X) expected_cols target_idx st body = Return st' /\
    fixed_rows st' = fixed_rows st ++ new /\
    length new = length body /\
    Forall (fun r => Z.of_nat (length r) = expected_cols) new.
Proof.
  induction body as [|r body IH]; intros st Hec Hti; simpl.
  - exists st, []. rewrite app_nil_r. by repeat split.
  - destruct (fix_row_appends expected_cols target_idx st r Hec Hti)
      as (st1 & kept & -> & Hrows & Hlen).
    simpl.
    destruct (IH st1 Hec Hti) as (st' & new & -> & Hrows' & Hlen' & Hall).
    exists st', (kept :: new). split; [done|].
    rewrite Hrows', Hrows, <- app_assoc. simpl. repeat split; [lia|].
    by constructor.
Qed.

Lemma fix_rows_exact expected_cols target_idx body : forall st,
  Forall (fun r => Z.of_nat (length r) = expected_cols) body ->
  fix_rows (X:=X) expected_cols target_idx st body =
    Return {| fixed_rows := fixed_rows st ++ body;
              long_rows := long_rows st;
              short_rows := short_rows st |}.
Proof.
  induction body as [|r body IH]; intros st Hall; simpl.
  - rewrite app_nil_r. by destruct st.
  - inversion Hall as [|? ? Hr Hall']; subst.
    rewrite fix_row_exact by done. simpl.
    rewrite IH by done. simpl. by rewrite <- app_assoc.
Qed.

Lemma pd_DataFrame_rectangular (rows : list row) header :
  Forall (fun r => length r = length header) rows ->
  pd_DataFrame (X:=X) rows header
  = Return {| columns := header; data := rows |}.
Proof.
  intros Hall. unfold pd_DataFrame.
  replace (forallb _ rows) with true; [done|].
  symmetry. apply forallb_forall. intros r Hr.
  apply Nat.eqb_eq. rewrite Forall_forall in Hall. apply Hall.
  by apply list_elem_of_In.
Qed.

(** The shared part of the loaders returns a frame of the expected width
    with one row for each row of the body. *)
Lemma force_width_rectangular (rows : list row) expected_cols
    merge_into delim :
  1 <= expected_cols ->
  exists df out,
    force_width (X:=X) rows expected_cols merge_into delim = Return (df, out) /\
    Forall (fun r => Z.of_nat (length r) = expected_cols) (data df) /\
    length (data df) = length (tail rows).
Proof.
  intros Hec. destruct rows as [|header body]; simpl.
  - by exists empty_frame, [].
  - pose proof (normalize_header_length header expected_cols ltac:(lia)) as Hh.
    pose proof (target_index_range merge_into _ expected_cols Hec Hh) as Hti.
    destruct (fix_rows_appends expected_cols
                (target_index merge_into (normalize_header header expected_cols)
                   expected_cols)
                body {| fixed_rows := []; long_rows := 0; short_rows := 0 |}
                Hec Hti) as (st' & new & -> & Hrows & Hlen & Hall).
    simpl in Hrows. subst new. simpl.
    rewrite pd_DataFrame_rectangular.
    + simpl. eexists _, _. split; [done|]. done.
    + eapply Forall_impl; [exact Hall|]. simpl. intros r Hr. lia.
Qed.

End WidthFacts.

(** With the default merge target, the last column of a long row holds
    the field at position [expected_cols - 1] followed by the comma-join
    of the fields from that same position on: the field is there twice. *)
Lemma merge_overflow_default {X : Type} (expected_cols : Z)
    (r : row) (x : str) :
  1 <= expected_cols < Z.of_nat (length r) ->
  r !! Z.to_nat (expected_cols - 1) = Some x ->
  merge_overflow (X:=X) expected_cols (expected_cols - 1) r =
    Return (take (Z.to_nat (expected_cols - 1)) r
            ++ [rstrip 44%N
                  (x ++ lit "," ++
                   join (lit ",") (x :: drop (Z.to_nat expected_cols) r))]).
Proof.
  intros Hec Hx. unfold merge_overflow.
  rewrite Z.ltb_irrefl, slice_upto_take, slice_from_drop by lia.
  set (n := Z.to_nat (expected_cols - 1)).
  replace (Z.to_nat expected_cols) with (S n) by lia.
  rewrite (take_S_r r n x) by done.
  rewrite (drop_S r x n) by done.
  destruct (merge_at_returns (X:=X) (take n r ++ [x]) (x :: drop (S n) r)
              (-1) n) as (old & Hold & ->).
  { rewrite subscript_last; rewrite length_app, length_take; simpl;
      [f_equal|]; lia. }
  assert (Hn : length (take n r) = n) by (rewrite length_take; lia).
  rewrite lookup_app_r, Hn, Nat.sub_diag in Hold by lia.
  injection Hold as <-.
  rewrite insert_app_r_alt, Hn, Nat.sub_diag by lia. reflexivity.
Qed.

(** *** The width normaliser, row by row *)

Section WidthRows.
Context {X : Type}.
Implicit Types (r kept header : row) (st : tally) (body : list row).
Implicit Types (expected_cols target_idx : Z).

(** A long row: the row is cut to the width and the merge column takes
    its field, a comma and the comma-join of the fields from position
    [expected_cols - 1] on, trailing commas removed. *)
Lemma merge_overflow_at expected_cols target_idx r :
  1 <= expected_cols < Z.of_nat (length r) ->
  0 <= target_idx <= expected_cols - 1 ->
  merge_overflow (X:=X) expected_cols target_idx r =
    Return (<[Z.to_nat target_idx :=
               rstrip 44%N
                 (default [] (r !! Z.to_nat target_idx) ++ lit "," ++
                  join (lit ",") (drop (Z.to_nat (expected_cols - 1)) r))]>
              (take (Z.to_nat expected_cols) r)).
Proof.
  intros Hec Hti. unfold merge_overflow.
  rewrite slice_upto_take, slice_from_drop by lia.
  assert (Hlen : length (take (Z.to_nat expected_cols) r)
                 = Z.to_nat expected_cols)
    by (rewrite length_take; lia).
  assert (Hsub : forall i,
            subscript (length (take (Z.to_nat expected_cols) r)) i
              = Some (Z.to_nat target_idx) ->
            merge_at (X:=X) (take (Z.to_nat expected_cols) r) i
              (drop (Z.to_nat (expected_cols - 1)) r) =
            Return (<[Z.to_nat target_idx :=
               rstrip 44%N
                 (default [] (r !! Z.to_nat target_idx) ++ lit "," ++
                  join (lit ",") (drop (Z.to_nat (expected_cols - 1)) r))]>
              (take (Z.to_nat expected_cols) r))).
  { intros i Hi. destruct (merge_at_returns (X:=X) _
      (drop (Z.to_nat (expected_cols - 1)) r) i _ Hi) as (old & Hold & ->).
    rewrite lookup_take_lt in Hold by lia. by rewrite Hold. }
  destruct (Z.ltb_spec target_idx (expected_cols - 1)).
  - apply Hsub, subscript_nonneg. lia.
  - apply Hsub. rewrite subscript_last by lia. f_equal. lia.
Qed.

Lemma fix_row_reshaped expected_cols target_idx st r :
  1 <= expected_cols ->
  0 <= target_idx <= expected_cols - 1 ->
  fix_row (X:=X) expected_cols target_idx st r =
    Return {| fixed_rows :=
                fixed_rows st ++ [reshaped expected_cols (Z.to_nat target_idx) r];
              long_rows := long_rows st + count_long expected_cols [r];
              short_rows := short_rows st + count_short expected_cols [r] |}.
Proof.
  intros Hec Hti. unfold fix_row, reshaped, count_long, count_short, times.
  rewrite !filter_cons, !filter_nil.
  destruct (Z.eqb_spec (Z.of_nat (length r)) expected_cols).
  - rewrite !decide_False by lia. simpl. by rewrite !Z.add_0_r.
  - destruct (Z.ltb_spec expected_cols (Z.of_nat (length r))).
    + rewrite merge_overflow_at by lia. simpl.
      rewrite decide_True, decide_False by lia. simpl. by rewrite Z.add_0_r.
    + rewrite decide_False, decide_True by lia. simpl. rewrite Z.add_0_r.
      replace (Z.to_nat (expected_cols - Z.of_nat (length r)))
        with (Z.to_nat expected_cols - length r)%nat by lia.
      reflexivity.
Qed.

Lemma count_long_cons expected_cols r body :
  count_long expected_cols (r :: body)
  = count_long expected_cols [r] + count_long expected_cols body.
Proof.
  unfold count_long. rewrite !filter_cons, filter_nil.
  case_decide; simpl; lia.
Qed.

Lemma count_short_cons expected_cols r body :
  count_short expected_cols (r :: body)
  = count_short expected_cols [r] + count_short expected_cols body.
Proof.
  unfold count_short. rewrite !filter_cons, filter_nil.
  case_decide; simpl; lia.
Qed.

Lemma fix_rows_reshaped expected_cols target_idx body : forall st,
  1 <= expected_cols ->
  0 <= target_idx <= expected_cols - 1 ->
  fix_rows (X:=X) expected_cols target_idx st body =
    Return {| fixed_rows :=
                fixed_rows st
                ++ (reshaped expected_cols (Z.to_nat target_idx) <$> body);
              long_rows := long_rows st + count_long expected_cols body;
              short_rows := short_rows st + count_short expected_cols body |}.
Proof.
  induction body as [|r body IH]; intros st Hec Hti.
  - simpl. rewrite app_nil_r. unfold count_long, count_short. simpl.
    rewrite !Z.add_0_r. by destruct st.
  - simpl. rewrite fix_row_reshaped by done. simpl. rewrite IH by done. simpl.
    rewrite (count_long_cons _ r body), (count_short_cons _ r body).
    rewrite <- app_assoc, !Z.add_assoc. reflexivity.
Qed.

Lemma reshaped_length expected_cols (p : nat) r :
  0 <= expected_cols ->
  Z.of_nat (length (reshaped expected_cols p r)) = expected_cols.
Proof.
  intros Hec. unfold reshaped.
  destruct (Z.eqb_spec (Z.of_nat (length r)) expected_cols); [done|].
  destruct (Z.ltb_spec expected_cols (Z.of_nat (length r))).
  - rewrite length_insert, length_take. lia.
  - rewrite length_app, length_replicate. lia.
Qed.

(** The loader in closed form when the width is at least one. *)
Lemma force_width_reshaped header body expected_cols
    (merge_into delim : option str) :
  1 <= expected_cols ->
  force_width (X:=X) (header :: body) expected_cols merge_into delim =
    Return
      ({| columns := normalize_header header expected_cols;
          data :=
            reshaped expected_cols
              (Z.to_nat (target_index merge_into
                           (normalize_header header expected_cols)
                           expected_cols))
            <$> body |},
       [Loaded (length body) expected_cols delim]
       ++ (if count_long expected_cols body =? 0 then []
           else [Merged_rows expected_cols (count_long expected_cols body)])
       ++ (if count_short expected_cols body =? 0 then []
           else [Padded_rows expected_cols (count_short expected_cols body)])).
Proof.
  intros Hec. unfold force_width.
  pose proof (normalize_header_length header expected_cols ltac:(lia)) as Hh.
  pose proof (target_index_range merge_into _ expected_cols Hec Hh) as Hti.
  rewrite fix_rows_reshaped by done. simpl.
  rewrite pd_DataFrame_rectangular.
  - simpl. by rewrite length_fmap.
  - apply Forall_fmap, Forall_forall. intros r _. simpl.
    pose proof (reshaped_length expected_cols
                  (Z.to_nat (target_index merge_into
                               (normalize_header header expected_cols)
                               expected_cols)) r ltac:(lia)).
    lia.
Qed.

End WidthRows.

(** *** Claims on the width normaliser *)

Section WidthClaims.
Context {X : Type}.
Variable read_rows : str -> res X (list row).
Variable bytes_decode : str -> bool -> list byte -> res X str.
Variable csv_reader : str -> str -> res X (list row).

(** C1. On the row [a, b, c, d] with three expected columns and no merge
    target the loader does not build [a, b, "c,d"]: the overflow slice
    starts one field early, so the last column is "c,c,d". *)
Theorem overflow_merge_repeats_field :
  force_width (X:=X)
    [[lit "h1"; lit "h2"; lit "h3"]; [lit "a"; lit "b"; lit "c"; lit "d"]]
    3 None None =
  Return ({| columns := [lit "h1"; lit "h2"; lit "h3"];
             data := [[lit "a"; lit "b"; lit "c,c,d"]] |},
          [Loaded 1 3 None; Merged_rows 3 1])
  /\ lit "c,c,d" <> lit "c,d".
Proof. split; [reflexivity | discriminate]. Qed.

(** C2, amended. For every list of parsed rows and every expected width
    of at least one, [load_csv_force_width] returns a frame whose rows all
    have exactly the expected width and which has as many rows as the
    input has body rows. *)
Theorem load_csv_force_width_rectangular (rows : list row)
    (expected_cols : Z) (merge_into : option str)
    (encoding_try : list str) :
  1 <= expected_cols ->
  read_first read_rows encoding_try encoding_try None = Return rows ->
  exists df out,
    load_csv_force_width read_rows expected_cols merge_into encoding_try
      = Return (df, out) /\
    Forall (fun r => Z.of_nat (length r) = expected_cols) (data df) /\
    length (data df) = length (tail rows).
Proof.
  intros Hec Hrows. unfold load_csv_force_width. rewrite Hrows. simpl.
  by apply force_width_rectangular.
Qed.

(** C7. For every body row with fewer fields than the expected width,
    the frame the width normaliser returns holds, at the position of that
    row, the row followed by empty strings up to the expected width: its
    own fields are unchanged and in place. The frame has one row for each
    body row, and the [Padded] line is printed with the number of short
    rows. Both loaders return what [force_width] returns for the rows
    they parsed. *)
Theorem short_row_right_padded (header : row) (body : list row)
    (expected_cols : Z) (merge_into delim : option str) (i : nat) (r : row) :
  body !! i = Some r ->
  Z.of_nat (length r) < expected_cols ->
  exists df out kept,
    force_width (X:=X) (header :: body) expected_cols merge_into delim
      = Return (df, out) /\
    length (data df) = length body /\
    data df !! i = Some kept /\
    kept = r ++ replicate (Z.to_nat expected_cols - length r)%nat [] /\
    Z.of_nat (length kept) = expected_cols /\
    (forall (j : nat) x, r !! j = Some x -> kept !! j = Some x) /\
    (forall j : nat, (length r <= j < length kept)%nat -> kept !! j = Some []) /\
    1 <= count_short expected_cols body /\
    (Padded_rows expected_cols (count_short expected_cols body) ∈ out).
Proof.
  intros Hi Hr.
  assert (Hshort : 1 <= count_short expected_cols body).
  { unfold count_short.
    assert (Hin : r ∈ filter (fun r => Z.of_nat (length r) < expected_cols) body).
    { apply list_elem_of_filter. split; [done|]. by eapply list_elem_of_lookup_2. }
    destruct (filter _ body); [by apply elem_of_nil in Hin | simpl; lia]. }
  eexists _, _, _. split; [apply force_width_reshaped; lia|]. simpl.
  split; [by rewrite length_fmap|].
  split; [by rewrite list_lookup_fmap, Hi|].
  assert (Hkept : reshaped expected_cols
            (Z.to_nat (target_index merge_into
                         (normalize_header header expected_cols)
                         expected_cols)) r
          = r ++ replicate (Z.to_nat expected_cols - length r)%nat []).
  { unfold reshaped.
    destruct (Z.eqb_spec (Z.of_nat (length r)) expected_cols); [lia|].
    destruct (Z.ltb_spec expected_cols (Z.of_nat (length r))); [lia|done]. }
  rewrite Hkept. split; [done|]. split; [|split; [|split; [|split]]].
  - rewrite length_app, length_replicate. lia.
  - intros j x Hj. by apply lookup_app_l_Some.
  - intros j. rewrite length_app, length_replicate. intros Hj.
    rewrite lookup_app_r by lia. apply lookup_replicate_2. lia.
  - done.
  - destruct (Z.eqb_spec (count_short expected_cols body) 0); [lia|].
    apply list_elem_of_further, elem_of_app. right. apply list_elem_of_here.
Qed.

(** C8. Normalising again a table whose header and rows already have the
    expected width returns the same header and the same rows in the same
    order, and reports no long and no short row. *)
Theorem force_width_already_normal (df : DataFrame) (expected_cols : Z)
    (merge_into delim : option str) :
  Z.of_nat (length (columns df)) = expected_cols ->
  Forall (fun r => Z.of_nat (length r) = expected_cols) (data df) ->
  force_width (X:=X) (columns df :: data df) expected_cols merge_into delim =
    Return (df, [Loaded (length (data df)) expected_cols delim]).
Proof.
  intros Hh Hall. unfold force_width.
  rewrite normalize_header_exact by done.
  rewrite fix_rows_exact by done. simpl.
  rewrite pd_DataFrame_rectangular.
  - simpl. by destruct df.
  - eapply Forall_impl; [exact Hall|]. simpl. intros r Hr. lia.
Qed.

(** C10. When no row was parsed, both loaders return the empty frame:
    nothing is raised, no header name is made up and nothing is printed,
    the long-row and short-row lines included. *)
Theorem no_rows_empty_frame (raw : list byte) (text : str)
    (expected_cols : Z) (merge_into delimiter : option str)
    (encoding_try : list str) :
  read_first read_rows encoding_try encoding_try None = Return [] ->
  _decode_text_safely bytes_decode raw default_encodings = Return text ->
  (forall delim, csv_reader text delim = Return []) ->
  load_csv_force_width read_rows expected_cols merge_into encoding_try
    = Return (empty_frame, []) /\
  load_csv_force_width_resilient bytes_decode csv_reader raw expected_cols
    merge_into delimiter = Return (empty_frame, []) /\
  columns empty_frame = [] /\ data empty_frame = [].
Proof.
  intros Hread Htext Hcsv. split; [|split; [|done]].
  - unfold load_csv_force_width. by rewrite Hread.
  - unfold load_csv_force_width_resilient. rewrite Htext. simpl.
    by rewrite Hcsv.
Qed.

End WidthClaims.

(** *** The claims at concrete inputs *)

Lemma load_csv_force_width_rectangular_witness :
  exists df out,
    load_csv_force_width (reads ragged_rows) 3 None [lit "utf-8"; lit "latin1"]
      = Return (df, out) /\
    Forall (fun r => Z.of_nat (length r) = 3) (data df) /\
    length (data df) = 3%nat.
Proof.
  apply (load_csv_force_width_rectangular (reads ragged_rows) ragged_rows 3 None
           [lit "utf-8"; lit "latin1"]); [lia | reflexivity].
Defined.

(** C2 as stated fails: with an expected width of -1 the loader returns a
    frame whose only row has one field, and with an expected width of 0
    it raises [IndexError] on a row that has a field. *)
Lemma width_not_forced_below_one :
  load_csv_force_width (reads [[lit "h1"; lit "h2"]; [lit "x"; lit "y"]])
    (-1) None [lit "utf-8"; lit "latin1"]
  = Return ({| columns := [lit "h1"]; data := [[lit "x,x,y"]] |},
            [Loaded 1 (-1) None; Merged_rows (-1) 1])
  /\ ~ Forall (fun r : row => Z.of_nat (length r) = -1)
         [[lit "x,x,y"]]
  /\ load_csv_force_width (reads [[lit "h1"]; [lit "x"]])
       0 None [lit "utf-8"; lit "latin1"]
     = Raise IndexError.
Proof.
  split; [reflexivity|]. split; [|reflexivity].
  intros H. inversion H as [|? ? Hlen _]. simpl in Hlen. lia.
Qed.

Lemma short_row_right_padded_witness :
  exists df out kept,
    force_width (X:=Empty_set)
      [ [lit "h1"; lit "h2"; lit "h3"];
        [lit "a"; lit "b"; lit "c"; lit "d"];
        [lit "a"];
        [lit "a"; lit "b"; lit "c"] ] 3 None None
      = Return (df, out) /\
    length (data df) = 3%nat /\
    data df !! 1%nat = Some kept /\
    kept = [lit "a"; lit ""; lit ""] /\
    Z.of_nat (length kept) = 3 /\
    (forall (j : nat) x, [lit "a"] !! j = Some x -> kept !! j = Some x) /\
    (forall j : nat, (1 <= j < length kept)%nat -> kept !! j = Some []) /\
    1 <= 1 /\
    (Padded_rows 3 1 ∈ out).
Proof.
  apply (short_row_right_padded (X:=Empty_set)
           [lit "h1"; lit "h2"; lit "h3"]
           [ [lit "a"; lit "b"; lit "c"; lit "d"];
             [lit "a"];
             [lit "a"; lit "b"; lit "c"] ] 3 None None 1 [lit "a"]).
  - reflexivity.
  - simpl. lia.
Defined.

Lemma force_width_already_normal_witness :
  force_width (X:=Empty_set)
    [[lit "h1"; lit "h2"]; [lit "a"; lit "b"]; [lit "c"; lit "d"]] 2 None None =
  Return ({| columns := [lit "h1"; lit "h2"];
             data := [[lit "a"; lit "b"]; [lit "c"; lit "d"]] |},
          [Loaded 2 2 None]).
Proof.
  apply (force_width_already_normal (X:=Empty_set)
           {| columns := [lit "h1"; lit "h2"];
              data := [[lit "a"; lit "b"]; [lit "c"; lit "d"]] |} 2 None None).
  - reflexivity.
  - repeat constructor.
Defined.

Lemma no_rows_empty_frame_witness :
  load_csv_force_width (reads []) 106 None [lit "utf-8"; lit "latin1"]
    = Return (empty_frame, []) /\
  load_csv_force_width_resilient latin1_only (fun _ _ => Return []) []
    106 None None = Return (empty_frame, []) /\
  columns empty_frame = [] /\ data empty_frame = [].
Proof.
  apply (no_rows_empty_frame (reads []) latin1_only (fun _ _ => Return []) [] []
           106 None None [lit "utf-8"; lit "latin1"]).
  - reflexivity.
  - reflexivity.
  - intros delim. reflexivity.
Defined.

(** ** Byte decoder *)

Lemma Qlt_bool_iff (a b : Q) : Qlt_bool a b = true <-> (a < b)%Q.
Proof.
  unfold Qlt_bool. rewrite negb_true_iff, <- not_true_iff_false, Qle_bool_iff.
  split; [apply Qnot_le_lt | apply Qlt_not_le].
Qed.

Lemma count_nul_le (sample : list byte) :
  0 <= count_nul sample <= Z.of_nat (length sample).
Proof.
  unfold count_nul. pose proof (length_filter (fun b => b = x00) sample). lia.
Qed.

(** On a sample of 200 bytes the ratio exceeds one tenth exactly when
    more than 20 bytes are null. *)
Lemma zero_ratio_tenth (sample : list byte) :
  length sample = 200%nat ->
  (1 # 10 < zero_ratio sample)%Q <-> 20 < count_nul sample.
Proof.
  intros Hlen. unfold zero_ratio. rewrite Hlen.
  unfold Qlt, Qdiv, Qmult, Qinv, inject_Z. simpl. lia.
Qed.

Lemma startswith_spec (prefix raw : list byte) :
  startswith prefix raw = true <-> exists rest, raw = prefix ++ rest.
Proof.
  unfold startswith. rewrite bool_decide_eq_true. split.
  - intros H. exists (drop (length prefix) raw).
    rewrite <- H at 1. by rewrite take_drop.
  - intros [rest ->]. by rewrite take_app_length.
Qed.

(** C4, amended. Without a byte-order mark, the input is classified as
    double-byte exactly when it has at least 200 bytes and the ratio of
    null bytes among its first 200 exceeds one tenth, that is, more than
    20 of them are null; a shorter input is never classified so. *)
Theorem looks_utf16_without_bom (raw : list byte) :
  startswith [xff; xfe] raw = false ->
  startswith [xfe; xff] raw = false ->
  (_looks_utf16 raw = true <->
     (200 <= length raw)%nat /\ (1 # 10 < zero_ratio (take 200 raw))%Q) /\
  (_looks_utf16 raw = true <->
     (200 <= length raw)%nat /\ 20 < count_nul (take 200 raw)) /\
  ((length raw < 200)%nat -> _looks_utf16 raw = false).
Proof.
  intros Hle Hbe. unfold _looks_utf16. rewrite Hle, Hbe. simpl.
  destruct (Z.leb_spec 200 (Z.of_nat (length raw))) as [Hlen|Hlen].
  - rewrite slice_upto_take by lia. change (Z.to_nat 200) with 200%nat.
    rewrite Qlt_bool_iff.
    assert (H200 : length (take 200 raw) = 200%nat)
      by (rewrite length_take; lia).
    pose proof (zero_ratio_tenth _ H200) as Hr.
    split; [|split]; [split | split | lia].
    + intros H. split; [lia | done].
    + by intros [_ H].
    + intros H. split; [lia | by apply Hr].
    + intros [_ H]. by apply Hr.
  - split; [|split]; [split | split | done];
      (discriminate || (intros [H _]; lia)).
Qed.

(** C4 as stated fails: four bytes without a byte-order mark, half of
    them null, are not classified as double-byte. *)
Lemma short_input_not_utf16 :
  startswith [xff; xfe] [x61; x00; x62; x00] = false /\
  startswith [xfe; xff] [x61; x00; x62; x00] = false /\
  (1 # 10 < zero_ratio (slice_upto [x61; x00; x62; x00] 200))%Q /\
  _looks_utf16 [x61; x00; x62; x00] = false.
Proof. repeat split. Qed.

Lemma count_zero_iff (c : char) (s : str) : count c s = 0 <-> c ∉ s.
Proof.
  unfold count. induction s as [|x s IH]; simpl.
  - split; [intros _; apply not_elem_of_nil | done].
  - rewrite filter_cons. rewrite not_elem_of_cons. case_decide; simpl.
    + split; [lia | intros [? _]; congruence].
    + rewrite IH. split; [intros ?; split; congruence | by intros [_ ?]].
Qed.

Lemma replace_removes (c : char) (text : str) : c ∉ replace c [] text.
Proof.
  unfold replace. intros H. apply list_elem_of_bind in H as (y & Hy & _).
  case_decide; [by apply elem_of_nil in Hy|].
  apply list_elem_of_singleton in Hy. congruence.
Qed.

Section DecoderClaims.
Context {X : Type}.
Variable bytes_decode : str -> bool -> list byte -> res X str.

Lemma decode_first_returns all raw encodings : forall last_err text,
  decode_first bytes_decode all raw encodings last_err = Return text ->
  exists enc t,
    (enc ∈ encodings) /\ bytes_decode enc true raw = Return t /\
    text = replace 0%N [] t.
Proof.
  induction encodings as [|enc encodings IH]; intros last_err text; simpl;
    [done|].
  destruct (bytes_decode enc true raw) as [t|e] eqn:Hdec.
  - intros [= <-]. exists enc, t. split; [apply list_elem_of_here | done].
  - intros H. destruct (IH _ _ H) as (enc' & t & ? & ? & ?).
    exists enc', t. split; [by apply list_elem_of_further | done].
Qed.

(** C6. Whenever the decoder returns a text, no null character is left
    in it: the text is what a codec returned with every null character
    removed, on the UTF-16 path and on the path of the listed encodings
    alike. *)
Theorem decoded_text_has_no_nul (raw : list byte)
    (encodings : list str) (text : str) :
  _decode_text_safely bytes_decode raw encodings = Return text ->
  (0%N ∉ text) /\ count 0%N text = 0 /\
  exists t,
    text = replace 0%N [] t /\
    ((_looks_utf16 raw = true /\
      bytes_decode (lit "utf-16") false raw = Return t) \/
     (exists enc, (enc ∈ encodings) /\ bytes_decode enc true raw = Return t)).
Proof.
  intros H.
  assert (Ht : exists t,
    text = replace 0%N [] t /\
    ((_looks_utf16 raw = true /\
      bytes_decode (lit "utf-16") false raw = Return t) \/
     (exists enc, (enc ∈ encodings) /\ bytes_decode enc true raw = Return t))).
  { unfold _decode_text_safely in H.
    destruct (_looks_utf16 raw) eqn:Hlooks.
    - destruct (bytes_decode (lit "utf-16") false raw) as [t|e] eqn:Hdec.
      + injection H as <-. exists t. split; [done|]. by left.
      + apply decode_first_returns in H as (enc & t & ? & ? & ?).
        exists t. split; [done|]. right. by exists enc.
    - apply decode_first_returns in H as (enc & t & ? & ? & ?).
      exists t. split; [done|]. right. by exists enc. }
  destruct Ht as (t & -> & Hpath).
  split; [apply replace_removes|].
  split; [apply count_zero_iff, replace_removes|].
  by exists t.
Qed.

End DecoderClaims.

Lemma looks_utf16_without_bom_witness :
  (_looks_utf16 (concat (replicate 100 [x61; x00])) = true <->
     (200 <= length (concat (replicate 100 [x61; x00])))%nat /\
     (1 # 10 < zero_ratio (take 200 (concat (replicate 100 [x61; x00]))))%Q) /\
  (_looks_utf16 (concat (replicate 100 [x61; x00])) = true <->
     (200 <= length (concat (replicate 100 [x61; x00])))%nat /\
     20 < count_nul (take 200 (concat (replicate 100 [x61; x00])))) /\
  ((length (concat (replicate 100 [x61; x00])) < 200)%nat ->
   _looks_utf16 (concat (replicate 100 [x61; x00])) = false).
Proof.
  apply (looks_utf16_without_bom (concat (replicate 100 [x61; x00])));
    reflexivity.
Defined.

Lemma decoded_text_has_no_nul_witness :
  (0%N ∉ lit "ab") /\ count 0%N (lit "ab") = 0 /\
  exists t,
    lit "ab" = replace 0%N [] t /\
    ((_looks_utf16 [x61; x00; x62] = true /\
      latin1_only (lit "utf-16") false [x61; x00; x62] = Return t) \/
     (exists enc, (enc ∈ default_encodings) /\
                  latin1_only enc true [x61; x00; x62] = Return t)).
Proof.
  apply (decoded_text_has_no_nul latin1_only [x61; x00; x62] default_encodings
           (lit "ab")).
  reflexivity.
Defined.

(** ** Delimiter inferencer *)

(** *** Division of integers *)

Lemma round_half_even_nearest (num den : Z) :
  0 < den ->
  - den <= 2 * (round_half_even num den * den - num) <= den.
Proof.
  intros Hden. unfold round_half_even.
  pose proof (Z.div_mod num den ltac:(lia)) as Hdm.
  pose proof (Z.mod_pos_bound num den Hden) as Hr.
  destruct (Z.ltb_spec (2 * (num mod den)) den);
    [|destruct (Z.ltb_spec den (2 * (num mod den)));
      [|destruct (Z.even (num / den))]]; nia.
Qed.

Lemma round_half_even_tie (num den : Z) :
  0 < den -> 2 * (num mod den) = den ->
  Z.even (round_half_even num den) = true.
Proof.
  intros Hden Htie. unfold round_half_even.
  rewrite (proj2 (Z.ltb_ge _ _)), (proj2 (Z.ltb_ge _ _)) by lia.
  destruct (Z.even (num / den)) eqn:Hq; [done|].
  rewrite Z.even_add, Hq. reflexivity.
Qed.

Lemma round_half_even_between (num den lo hi : Z) :
  0 < den -> lo * den <= num <= hi * den ->
  lo <= round_half_even num den <= hi.
Proof.
  intros Hden Hnum.
  pose proof (round_half_even_nearest num den Hden) as Hnear.
  unfold round_half_even in *.
  pose proof (Z.div_mod num den ltac:(lia)) as Hdm.
  pose proof (Z.mod_pos_bound num den Hden) as Hr.
  assert (lo <= num / den) by (apply Z.div_le_lower_bound; lia).
  assert (num / den <= hi) by (apply Z.div_le_upper_bound; nia).
  destruct (Z.ltb_spec (2 * (num mod den)) den); [lia|].
  assert (num / den < hi); [|destruct (Z.ltb_spec den (2 * (num mod den)));
      [|destruct (Z.even (num / den))]; lia].
  destruct (decide (num / den = hi)); [|lia]. nia.
Qed.

Lemma ulp_exponent_spec (a b : Z) :
  0 < a -> 0 < b ->
  let e := ulp_exponent a b in
  (0 <= e -> 2 ^ 52 * (b * 2 ^ e) <= a < 2 ^ 53 * (b * 2 ^ e)) /\
  (e < 0 -> 2 ^ 52 * b <= a * 2 ^ (- e) < 2 ^ 53 * b).
Proof.
  intros Ha Hb. unfold ulp_exponent.
  pose proof (Z.log2_spec a Ha) as HA. pose proof (Z.log2_spec b Hb) as HB.
  pose proof (Z.log2_nonneg a) as Hla. pose proof (Z.log2_nonneg b) as Hlb.
  rewrite Z.pow_succ_r in HA, HB by done.
  set (la := Z.log2 a) in *. set (lb := Z.log2 b) in *.
  assert (HP : 0 < 2 ^ la) by (apply Z.pow_pos_nonneg; lia).
  assert (HQ : 0 < 2 ^ lb) by (apply Z.pow_pos_nonneg; lia).
  assert (H52 : 0 < 2 ^ 52) by done. assert (H53 : 2 ^ 53 = 2 * 2 ^ 52) by done.
  destruct (Z.leb_spec (b * 2 ^ la) (a * 2 ^ lb)) as [Hc|Hc]; simpl; split; intros He.
  - assert (Hpow : 2 ^ la = 2 ^ lb * (2 ^ 52 * 2 ^ (la - lb - 52))).
    { rewrite <- !Z.pow_add_r by lia. f_equal. lia. }
    assert (0 < 2 ^ (la - lb - 52)) by (apply Z.pow_pos_nonneg; lia).
    set (E := 2 ^ (la - lb - 52)) in *. rewrite H53. nia.
  - assert (Hpow : 2 ^ lb * 2 ^ 52 = 2 ^ la * 2 ^ (- (la - lb - 52))).
    { rewrite <- !Z.pow_add_r by lia. f_equal. lia. }
    assert (0 < 2 ^ (- (la - lb - 52))) by (apply Z.pow_pos_nonneg; lia).
    set (E := 2 ^ (- (la - lb - 52))) in *. rewrite H53. nia.
  - assert (Hpow : 2 ^ la = 2 ^ lb * (2 * 2 ^ 52 * 2 ^ (la - lb - 1 - 52))).
    { rewrite <- H53, <- !Z.pow_add_r by lia. f_equal. lia. }
    assert (0 < 2 ^ (la - lb - 1 - 52)) by (apply Z.pow_pos_nonneg; lia).
    set (E := 2 ^ (la - lb - 1 - 52)) in *. rewrite H53. nia.
  - assert (Hpow : 2 ^ lb * (2 * 2 ^ 52) = 2 ^ la * 2 ^ (- (la - lb - 1 - 52))).
    { rewrite <- H53, <- !Z.pow_add_r by lia. f_equal. lia. }
    assert (0 < 2 ^ (- (la - lb - 1 - 52))) by (apply Z.pow_pos_nonneg; lia).
    set (E := 2 ^ (- (la - lb - 1 - 52))) in *. rewrite H53. nia.
Qed.

Lemma truediv_zero (b : Z) : truediv 0 b = 0%Q.
Proof. reflexivity. Qed.

(** The float [a / b] has a significand of 53 bits and is within half a
    unit in the last place of the quotient. *)
Lemma truediv_value (a b : Z) :
  0 < a -> 0 < b ->
  exists m,
    2 ^ 52 <= m <= 2 ^ 53 /\
    (truediv a b == inject_Z m * 2 ^ ulp_exponent a b)%Q /\
    (Qabs (truediv a b - inject_Z a / inject_Z b)
     <= (1 # 2) * 2 ^ ulp_exponent a b)%Q.
Proof.
  intros Ha Hb. unfold truediv.
  destruct (Z.eqb_spec a 0); [lia|].
  destruct (ulp_exponent_spec a b Ha Hb) as [Hpos Hneg].
  set (e := ulp_exponent a b) in *. simpl in Hpos, Hneg.
  destruct (Z.leb_spec 0 e) as [He|He].
  - specialize (Hpos He).
    assert (HE : 0 < 2 ^ e) by (apply Z.pow_pos_nonneg; lia).
    assert (Hden : 0 < b * 2 ^ e) by nia.
    pose proof (round_half_even_nearest a _ Hden) as Hnear.
    pose proof (round_half_even_between a _ (2 ^ 52) (2 ^ 53) Hden ltac:(lia))
      as Hm.
    exists (round_half_even a (b * 2 ^ e)).
    set (m := round_half_even a (b * 2 ^ e)) in *.
    assert (Hpow : (2 ^ e == inject_Z (2 ^ e))%Q).
    { symmetry. apply (Zpower_Qpower 2 e He). }
    split; [done|]. split.
    + rewrite Hpow, <- inject_Z_mult. reflexivity.
    + rewrite Hpow.
      assert (Heq : (inject_Z (m * 2 ^ e) - inject_Z a / inject_Z b
                     == inject_Z (m * (b * 2 ^ e) - a) / inject_Z b)%Q).
      { unfold Zminus. rewrite !inject_Z_plus, inject_Z_opp, !inject_Z_mult.
        field. unfold Qeq. simpl. lia. }
      rewrite Heq. unfold Qdiv. rewrite Qabs_Qmult.
      rewrite (Qabs_pos (/ inject_Z b)).
      2:{ apply Qinv_le_0_compat. unfold Qle. simpl. lia. }
      apply Qle_shift_div_r; [unfold Qlt; simpl; lia|].
      apply Qabs_case; intros _;
        rewrite <- ?inject_Z_opp;
        unfold Qle, Qmult, inject_Z; simpl; nia.
  - specialize (Hneg He).
    assert (HE : 0 < 2 ^ (- e)) by (apply Z.pow_pos_nonneg; lia).
    pose proof (round_half_even_nearest (a * 2 ^ (- e)) b Hb) as Hnear.
    pose proof (round_half_even_between (a * 2 ^ (- e)) b (2 ^ 52) (2 ^ 53) Hb
                  ltac:(lia)) as Hm.
    exists (round_half_even (a * 2 ^ (- e)) b).
    set (m := round_half_even (a * 2 ^ (- e)) b) in *.
    assert (Hpow : (2 ^ e == 1 # Z.to_pos (2 ^ (- e)))%Q).
    { replace e with (- - e) at 1 by lia. rewrite Qpower_opp.
      change 2%Q with (inject_Z 2). rewrite <- Zpower_Qpower by lia.
      unfold Qinv, inject_Z, Qeq. simpl.
      destruct (2 ^ (- e)) eqn:Hp; simpl; lia. }
    split; [done|]. split.
    + rewrite Hpow. unfold Qeq, Qmult, inject_Z. simpl. lia.
    + rewrite Hpow.
      assert (Heq : ((m # Z.to_pos (2 ^ (- e))) - inject_Z a / inject_Z b
                     == inject_Z (m * b - a * 2 ^ (- e))
                        / inject_Z (b * 2 ^ (- e)))%Q).
      { unfold Zminus. rewrite !inject_Z_plus, inject_Z_opp, !inject_Z_mult.
        rewrite (Qmake_Qdiv m). rewrite Z2Pos.id by done.
        field. split; unfold Qeq; simpl; lia. }
      rewrite Heq. unfold Qdiv. rewrite Qabs_Qmult.
      rewrite (Qabs_pos (/ inject_Z (b * 2 ^ (- e)))).
      2:{ apply Qinv_le_0_compat. unfold Qle. simpl. nia. }
      apply Qle_shift_div_r; [unfold Qlt; simpl; nia|].
      apply Qabs_case; intros _;
        rewrite <- ?inject_Z_opp;
        unfold Qle, Qmult, inject_Z; simpl; rewrite ?Z2Pos.id by done; nia.
Qed.

Lemma truediv_pos (a b : Z) : 0 < a -> 0 < b -> (0 < truediv a b)%Q.
Proof.
  intros Ha Hb. destruct (truediv_value a b Ha Hb) as (m & Hm & -> & _).
  apply Qmult_lt_0_compat; [unfold Qlt; simpl; lia|].
  apply Qpower_0_lt. done.
Qed.

(** The floats Python shows for [1 / 3], [1 / 10] and [5 / 2], and a
    quotient half way between two floats. *)
Example truediv_third :
  (truediv 1 3 == 6004799503160661 # 18014398509481984)%Q.
Proof. reflexivity. Qed.

Example truediv_tenth :
  (truediv 1 10 == 3602879701896397 # 36028797018963968)%Q.
Proof. reflexivity. Qed.

Example truediv_exact : (truediv 5 2 == 5 # 2)%Q.
Proof. reflexivity. Qed.

Example truediv_ties_to_even :
  (truediv (2 ^ 54 + 2) 4 == inject_Z (2 ^ 52))%Q /\
  (truediv (2 ^ 54 + 6) 4 == inject_Z (2 ^ 52 + 2))%Q.
Proof. split; reflexivity. Qed.

(** Variances that differ by less than the floats can tell are equal:
    with the counts 1, 1, 2, 2^27+1 for the comma and 1, 1, 1, 2^27+1 for
    the semicolon both variances are the float 2^52, the two scores tie
    and the sort keeps the comma in front. *)
Example close_variances_tie :
  variance 1 [1; 1; 2; 2 ^ 27 + 1] = inject_Z (2 ^ 52) /\
  variance 1 [1; 1; 1; 2 ^ 27 + 1] = inject_Z (2 ^ 52) /\
  fst <$> head (sorted_reverse
                  (add_score [1; 1; 1; 2 ^ 27 + 1] 59%N
                     (add_score [1; 1; 2; 2 ^ 27 + 1] 44%N [])))
  = Some 44%N.
Proof. by vm_compute. Qed.

(** *** Scores and their order *)

Lemma key_lt_spec (a b : Z * Q) :
  key_lt a b = true <-> a.1 < b.1 \/ (a.1 = b.1 /\ (a.2 < b.2)%Q).
Proof.
  unfold key_lt.
  rewrite orb_true_iff, andb_true_iff, Z.ltb_lt, Z.eqb_eq, Qlt_bool_iff. done.
Qed.

Lemma key_lt_false (a b : Z * Q) : key_lt a b = false <-> key_le b a.
Proof.
  rewrite <- not_true_iff_false, key_lt_spec. unfold key_le. split.
  - intros H. destruct (Z.lt_trichotomy a.1 b.1) as [?|[?|?]].
    + destruct H. by left.
    + right. split; [done|]. apply Qnot_lt_le. intros ?. destruct H. by right.
    + by left.
  - intros [?|[? Hq]] [?|[? ?]]; try lia. by apply Qle_not_lt in Hq.
Qed.

Lemma key_lt_le (a b : Z * Q) : key_lt a b = true -> key_le a b.
Proof.
  rewrite key_lt_spec. intros [?|[? ?]]; [by left|].
  right. split; [done | by apply Qlt_le_weak].
Qed.

Lemma key_le_refl (a : Z * Q) : key_le a a.
Proof. right. split; [done | apply Qle_refl]. Qed.

Lemma key_le_trans (a b c : Z * Q) : key_le a b -> key_le b c -> key_le a c.
Proof.
  unfold key_le. intros [?|[? ?]] [?|[? ?]]; try (left; lia).
  right. split; [lia|]. by eapply Qle_trans.
Qed.

Lemma key_lt_irrefl (a : Z * Q) : key_lt a a = false.
Proof. apply key_lt_false, key_le_refl. Qed.

(** *** [sorted(..., reverse=True)[0]] *)

Lemma head_insert_desc (x : char * (Z * Q)) (l : list (char * (Z * Q))) :
  head (insert_desc x l) =
    Some match head l with
         | Some y => if key_lt x.2 y.2 then y else x
         | None => x
         end.
Proof. destruct l as [|y l]; simpl; [done|]. by destruct (key_lt x.2 y.2). Qed.

(** The first item of the sorted list is the first item of greatest key:
    the items before it in the original list have a smaller key, those
    after it a key that is not greater. *)
Lemma head_sorted_reverse (items : list (char * (Z * Q))) : forall a,
  exists x pre post,
    head (sorted_reverse (a :: items)) = Some x /\
    a :: items = pre ++ x :: post /\
    (forall y, y ∈ pre -> key_lt y.2 x.2 = true) /\
    (forall y, y ∈ post -> key_le y.2 x.2).
Proof.
  induction items as [|b items IH]; intros a.
  - exists a, [], []. repeat split; intros y Hy; by apply elem_of_nil in Hy.
  - destruct (IH b) as (y & pre & post & Hhead & Hsplit & Hpre & Hpost).
    change (sorted_reverse (a :: b :: items))
      with (insert_desc a (sorted_reverse (b :: items))).
    rewrite head_insert_desc, Hhead.
    destruct (key_lt a.2 y.2) eqn:Hay.
    + exists y, (a :: pre), post. split; [done|]. split; [by rewrite Hsplit|].
      split; [|done]. intros z [->|Hz]%elem_of_cons; [done | by apply Hpre].
    + exists a, [], (b :: items). split; [done|]. split; [done|].
      split; [intros z Hz; by apply elem_of_nil in Hz|].
      intros z Hz. apply key_lt_false in Hay.
      apply key_le_trans with y.2; [|done].
      rewrite Hsplit in Hz. apply elem_of_app in Hz as [Hz|Hz].
      * by apply key_lt_le, Hpre.
      * apply elem_of_cons in Hz as [->|Hz];
          [apply key_le_refl | by apply Hpost].
Qed.

(** *** The scores of the candidates *)

Lemma first_best_greatest lines candidates d :
  first_best lines candidates d ->
  (d ∈ candidates) /\
  forall d', d' ∈ candidates -> key_le (score lines d') (score lines d).
Proof.
  intros (pre & post & -> & Hpre & Hpost). split.
  - apply elem_of_app. right. apply list_elem_of_here.
  - intros d' [H|H]%elem_of_app; [by apply key_lt_le, Hpre|].
    apply elem_of_cons in H as [->|H]; [apply key_le_refl | by apply Hpost].
Qed.

Lemma dict_set_fresh (d : char) (v : Z * Q) (scores : list (char * (Z * Q))) :
  d ∉ scores.*1 -> dict_set d v scores = scores ++ [(d, v)].
Proof.
  induction scores as [|[k w] scores IH]; simpl; [done|].
  rewrite not_elem_of_cons. intros [Hk Hd].
  case_decide; [congruence|]. by rewrite IH.
Qed.

Lemma fold_scores_no_lines (candidates : list char) : forall acc,
  foldl (fun scores d => add_score (count d <$> []) d scores) acc candidates
  = acc.
Proof.
  induction candidates as [|d candidates IH]; intros acc; simpl; [done|].
  apply IH.
Qed.

Lemma fold_scores lines (candidates : list char) :
  lines <> [] ->
  NoDup candidates ->
  forall acc,
    (forall d, d ∈ candidates -> d ∉ acc.*1) ->
    foldl (fun scores d => add_score (count d <$> lines) d scores) acc
      candidates
    = acc ++ ((fun d => (d, score lines d)) <$> candidates).
Proof.
  intros Hlines.
  induction 1 as [|d candidates Hd Hnd IH]; intros acc Hacc; simpl.
  - by rewrite app_nil_r.
  - unfold add_score at 2. rewrite bool_decide_eq_false_2.
    2:{ destruct lines; [done | discriminate]. }
    rewrite dict_set_fresh by (apply Hacc, list_elem_of_here).
    rewrite IH.
    + by rewrite <- app_assoc.
    + intros d' Hd'. rewrite fmap_app, elem_of_app. simpl.
      intros [H|H].
      * revert H. apply Hacc. by apply list_elem_of_further.
      * apply list_elem_of_singleton in H. congruence.
Qed.

Lemma all_scores_lines lines candidates :
  lines <> [] -> NoDup candidates ->
  all_scores lines candidates = (fun d => (d, score lines d)) <$> candidates.
Proof.
  intros Hlines Hnd. unfold all_scores. rewrite fold_scores; try done.
  intros d _. apply not_elem_of_nil.
Qed.

(** With at least one line and candidates that are all different, the
    sorted scores start with the first candidate of greatest score. *)
Lemma sorted_scores_head lines (c : char) (candidates : list char) :
  lines <> [] -> NoDup (c :: candidates) ->
  exists d,
    head (sorted_reverse (all_scores lines (c :: candidates)))
      = Some (d, score lines d) /\
    first_best lines (c :: candidates) d.
Proof.
  intros Hlines Hnd. rewrite all_scores_lines by done.
  destruct (head_sorted_reverse ((fun d => (d, score lines d)) <$> candidates)
              (c, score lines c))
    as (x & pre & post & Hhead & Hsplit & Hpre & Hpost).
  change ((c, score lines c) :: ((fun d => (d, score lines d)) <$> candidates))
    with ((fun d => (d, score lines d)) <$> (c :: candidates)) in Hhead, Hsplit.
  rewrite Hhead.
  apply fmap_app_inv in Hsplit as (pre' & rest & -> & Hrest & Hcands).
  symmetry in Hrest.
  apply fmap_cons_inv in Hrest as (d & post' & -> & -> & ->).
  exists d. split; [done|]. exists pre', post'. split; [done|]. split.
  - intros d' Hd'. apply (Hpre (d', score lines d')).
    apply list_elem_of_fmap. by exists d'.
  - intros d' Hd'. apply (Hpost (d', score lines d')).
    apply list_elem_of_fmap. by exists d'.
Qed.

Lemma NoDup_default_candidates : NoDup default_candidates.
Proof. by apply (bool_decide_unpack _). Qed.

Lemma all_scores_no_lines (candidates : list char) :
  all_scores [] candidates = [].
Proof. apply fold_scores_no_lines. Qed.

(** The two inferencers in terms of the scores of their lines. *)
Lemma _detect_delimiter_unfold (sample_lines : list str)
    (candidates : list char) :
  _detect_delimiter sample_lines candidates =
    match all_scores (nonblank sample_lines) candidates with
    | [] => None
    | _ =>
        fst <$> head (sorted_reverse
                        (all_scores (nonblank sample_lines) candidates))
    end.
Proof. reflexivity. Qed.

Lemma _detect_delim_from_text_unfold (text : str) (candidates : list char) :
  _detect_delim_from_text text candidates =
    match all_scores (sampled text) candidates with
    | [] => 44%N
    | _ =>
        from_option fst 44%N
          (head (sorted_reverse (all_scores (sampled text) candidates)))
    end.
Proof. reflexivity. Qed.

Lemma _detect_delimiter_no_lines (sample_lines : list str)
    (candidates : list char) :
  nonblank sample_lines = [] ->
  _detect_delimiter sample_lines candidates = None.
Proof.
  intros H. by rewrite _detect_delimiter_unfold, H, all_scores_no_lines.
Qed.

Lemma _detect_delimiter_lines (sample_lines : list str) :
  nonblank sample_lines <> [] ->
  exists d,
    _detect_delimiter sample_lines default_candidates = Some d /\
    first_best (nonblank sample_lines) default_candidates d.
Proof.
  intros Hlines.
  destruct (sorted_scores_head _ 44%N [59; 124; 9]%N Hlines
              NoDup_default_candidates) as (d & Hhead & Hbest).
  exists d. split; [|done].
  change ([44; 59; 124; 9]%N) with default_candidates in Hhead.
  rewrite _detect_delimiter_unfold, Hhead.
  by rewrite all_scores_lines by (done || apply NoDup_default_candidates).
Qed.

Lemma _detect_delim_from_text_no_lines (text : str)
    (candidates : list char) :
  sampled text = [] -> _detect_delim_from_text text candidates = 44%N.
Proof.
  intros H. by rewrite _detect_delim_from_text_unfold, H, all_scores_no_lines.
Qed.

Lemma _detect_delim_from_text_lines (text : str) :
  sampled text <> [] ->
  first_best (sampled text) default_candidates
    (_detect_delim_from_text text default_candidates).
Proof.
  intros Hlines.
  destruct (sorted_scores_head _ 44%N [59; 124; 9]%N Hlines
              NoDup_default_candidates) as (d & Hhead & Hbest).
  change ([44; 59; 124; 9]%N) with default_candidates in Hhead.
  rewrite _detect_delim_from_text_unfold, Hhead.
  by rewrite all_scores_lines by (done || apply NoDup_default_candidates).
Qed.

(** *** Claims on the delimiter inferencer *)

Lemma first_best_of_equal_scores lines (c : char) (candidates : list char)
    (d : char) :
  (forall d', d' ∈ c :: candidates -> score lines d' = score lines c) ->
  first_best lines (c :: candidates) d -> d = c.
Proof.
  intros Heq (pre & post & Hsplit & Hpre & _).
  destruct pre as [|c' pre]; simpl in Hsplit; [congruence|].
  injection Hsplit as <- Hrest.
  specialize (Hpre c (list_elem_of_here _ _)).
  rewrite (Heq d) in Hpre.
  - by rewrite key_lt_irrefl in Hpre.
  - rewrite Hrest. apply list_elem_of_further, elem_of_app. right.
    apply list_elem_of_here.
Qed.

(** When no candidate occurs in any line, every candidate has the same
    score. *)
Lemma score_of_absent lines (d d' : char) :
  Forall (fun ln => count d ln = 0) lines ->
  Forall (fun ln => count d' ln = 0) lines ->
  score lines d = score lines d'.
Proof.
  intros Hd Hd'. unfold score.
  replace (count d <$> lines) with (count d' <$> lines); [done|].
  induction lines as [|ln lines IH]; [done|].
  inversion Hd; inversion Hd'; subst. rewrite !fmap_cons.
  f_equal; [congruence|].
  by apply IH.
Qed.

Lemma absent_everywhere lines (d : char) :
  Forall (fun ln => Forall (fun d => count d ln = 0) default_candidates)
    lines ->
  d ∈ default_candidates ->
  Forall (fun ln => count d ln = 0) lines.
Proof.
  intros H Hd. eapply Forall_impl; [exact H|]. simpl. intros ln Hln.
  rewrite Forall_forall in Hln. by apply Hln.
Qed.

Lemma _detect_delim_from_text_candidate (text : str) :
  _detect_delim_from_text text default_candidates ∈ default_candidates.
Proof.
  destruct (sampled text) as [|ln lines] eqn:Hlines.
  - rewrite _detect_delim_from_text_no_lines by done. apply list_elem_of_here.
  - apply (first_best_greatest (sampled text)).
    apply _detect_delim_from_text_lines. by rewrite Hlines.
Qed.

Lemma delimiter_guess_candidate (head_lines : list str) :
  default 44%N (_detect_delimiter head_lines default_candidates)
  ∈ default_candidates.
Proof.
  destruct (nonblank head_lines) as [|ln lines] eqn:Hlines.
  - rewrite _detect_delimiter_no_lines by done. apply list_elem_of_here.
  - destruct (_detect_delimiter_lines head_lines) as (d & -> & Hbest);
      [by rewrite Hlines|].
    simpl. by apply first_best_greatest in Hbest as [? _].
Qed.

(** C3, amended. On a sample with at least one non-blank line each of
    the four candidates is scored, one that never occurs included, and
    the inferencer returns the first candidate (in the order comma,
    semicolon, pipe, tab) whose pair (modal count, -variance) is greatest
    among all four. The variance of a score is the float the code holds:
    the sum of the squared deviations from the mode divided by the number
    of lines, rounded to the nearest float, so that candidates whose
    variances round to one float tie. *)
Theorem inferencer_returns_first_best (sample_lines : list str)
    (text : str) :
  nonblank sample_lines <> [] ->
  sampled text <> [] ->
  (exists d,
     _detect_delimiter sample_lines default_candidates = Some d /\
     first_best (nonblank sample_lines) default_candidates d /\
     forall d', d' ∈ default_candidates ->
       key_le (score (nonblank sample_lines) d')
              (score (nonblank sample_lines) d)) /\
  first_best (sampled text) default_candidates
    (_detect_delim_from_text text default_candidates) /\
  forall d', d' ∈ default_candidates ->
    key_le (score (sampled text) d')
           (score (sampled text)
              (_detect_delim_from_text text default_candidates)).
Proof.
  intros Hsample Htext. split.
  - destruct (_detect_delimiter_lines sample_lines Hsample) as (d & Hd & Hbest).
    exists d. split; [done|]. split; [done|].
    by apply first_best_greatest in Hbest as [_ ?].
  - pose proof (_detect_delim_from_text_lines text Htext) as Hbest.
    split; [done|]. by apply first_best_greatest in Hbest as [_ ?].
Qed.

(** C3 as stated fails: in the sample [a], [b], [c;d] the comma never
    occurs and the semicolon occurs once, yet the comma is returned. *)
Lemma absent_comma_beats_present_semicolon :
  _detect_delimiter [lit "a"; lit "b"; lit "c;d"] default_candidates
    = Some 44%N /\
  _detect_delim_from_text (lit "a" ++ [10%N] ++ lit "b" ++ [10%N] ++ lit "c;d")
    default_candidates = 44%N /\
  Forall (fun ln => count 44%N ln = 0) [lit "a"; lit "b"; lit "c;d"] /\
  count 59%N (lit "c;d") = 1.
Proof.
  split; [by vm_compute|]. split; [by vm_compute|].
  split; [repeat constructor | reflexivity].
Qed.

(** C9. When none of the four candidates occurs in any sampled non-blank
    line, a sample without such lines included, the inferencer of
    [read_csv3.py] returns the comma, and so does the guess of
    [robust_read_csv], which replaces the [None] of [_detect_delimiter]
    by the comma. Both always return one of the four candidates. *)
Theorem comma_when_no_candidate_occurs (text : str)
    (head_lines : list str) :
  Forall (fun ln => Forall (fun d => count d ln = 0) default_candidates)
    (sampled text) ->
  Forall (fun ln => Forall (fun d => count d ln = 0) default_candidates)
    (nonblank head_lines) ->
  _detect_delim_from_text text default_candidates = 44%N /\
  default 44%N (_detect_delimiter head_lines default_candidates) = 44%N /\
  (forall text', _detect_delim_from_text text' default_candidates
                 ∈ default_candidates) /\
  (forall head_lines',
     default 44%N (_detect_delimiter head_lines' default_candidates)
     ∈ default_candidates).
Proof.
  intros Htext Hhead.
  split; [|split; [|split]];
    [| | apply _detect_delim_from_text_candidate
       | apply delimiter_guess_candidate].
  - destruct (sampled text) as [|ln lines] eqn:Hlines.
    + by apply _detect_delim_from_text_no_lines.
    + apply (first_best_of_equal_scores (sampled text) 44%N [59; 124; 9]%N).
      * intros d' Hd'. rewrite Hlines.
        apply score_of_absent; apply absent_everywhere; try done.
        apply list_elem_of_here.
      * apply _detect_delim_from_text_lines. by rewrite Hlines.
  - destruct (nonblank head_lines) as [|ln lines] eqn:Hlines.
    + by rewrite _detect_delimiter_no_lines.
    + destruct (_detect_delimiter_lines head_lines) as (d & -> & Hbest);
        [by rewrite Hlines|].
      simpl.
      apply (first_best_of_equal_scores (nonblank head_lines) 44%N
               [59; 124; 9]%N); [|done].
      intros d' Hd'. rewrite Hlines.
      apply score_of_absent; apply absent_everywhere; try done.
      apply list_elem_of_here.
Qed.

(** ** The fallback chain *)

Lemma regex_sep_of_candidate (delim : char) :
  delim ∈ default_candidates -> is_Some (dict_get delim regex_table).
Proof.
  unfold default_candidates. rewrite !elem_of_cons, elem_of_nil.
  intros [->|[->|[->|[->|[]]]]]; by eexists.
Qed.

Section RobustClaims.
Context {X F : Type}.
Variable pd_read_csv : source -> str -> keywords -> res X F.
Variable read_text : res X str.
Variable re_escape : str -> str.

(** C5. When the four attempts all fail, [robust_read_csv] returns no
    frame: it raises one [RuntimeError] whose message names the guessed
    delimiter and the modal delimiter count of the head lines and lists
    the four failures in the order plain, quote/escape, regex outside
    quotes, normalised text; the third line never reads [n/a]. *)
Theorem all_attempts_fail_one_error (head_lines : list str)
    (e1 e2 e3 e4 : X) :
  let delim := default 44%N (_detect_delimiter head_lines default_candidates) in
  let counts := count delim <$> nonblank head_lines in
  pd_read_csv Path [delim] Defaults = Raise e1 ->
  pd_read_csv Path [delim] Quote_escape = Raise e2 ->
  (forall sep, dict_get delim regex_table = Some sep ->
     pd_read_csv Path sep Header_infer = Raise e3) ->
  (forall sep, dict_get delim regex_table = Some sep ->
     (raw ← read_text;
      pd_read_csv (StringIO (normalize_text raw)) sep Defaults) = Raise e4) ->
  exists msg,
    robust_read_csv pd_read_csv read_text re_escape head_lines
      = Raise (RuntimeError msg (Some e4)) /\
    msg = Could_not_parse [delim]
            (if bool_decide (counts = []) then None else Some (mode_of counts))
            e1 e2 (Some e3) e4 /\
    error_lines msg =
      [ (Plain_read_csv, Some e1); (Quote_escape_read, Some e2);
        (Regex_outside_quotes, Some e3); (Normalized_text_parse, Some e4) ].
Proof.
  intros delim counts H1 H2 H3 H4.
  destruct (regex_sep_of_candidate delim (delimiter_guess_candidate head_lines))
    as [sep Hsep].
  eexists. split; [|split; [reflexivity|reflexivity]].
  unfold robust_read_csv. fold delim. rewrite H1, H2, Hsep.
  rewrite (H3 sep Hsep), (H4 sep Hsep). reflexivity.
Qed.

End RobustClaims.

Lemma inferencer_returns_first_best_witness :
  (exists d,
     _detect_delimiter [lit "a;b"; lit "c;d,e"; lit " "] default_candidates
       = Some d /\
     first_best [lit "a;b"; lit "c;d,e"] default_candidates d /\
     forall d', d' ∈ default_candidates ->
       key_le (score [lit "a;b"; lit "c;d,e"] d')
              (score [lit "a;b"; lit "c;d,e"] d)) /\
  first_best [lit "a;b"; lit "c;d,e"] default_candidates
    (_detect_delim_from_text (lit "a;b" ++ [10%N] ++ lit "c;d,e")
       default_candidates) /\
  forall d', d' ∈ default_candidates ->
    key_le (score [lit "a;b"; lit "c;d,e"] d')
           (score [lit "a;b"; lit "c;d,e"]
              (_detect_delim_from_text (lit "a;b" ++ [10%N] ++ lit "c;d,e")
                 default_candidates)).
Proof.
  apply (inferencer_returns_first_best [lit "a;b"; lit "c;d,e"; lit " "]
           (lit "a;b" ++ [10%N] ++ lit "c;d,e")); by vm_compute.
Defined.

Lemma comma_when_no_candidate_occurs_witness :
  _detect_delim_from_text (lit "ab" ++ [10%N] ++ lit "cd") default_candidates
    = 44%N /\
  default 44%N (_detect_delimiter [lit "ab"; lit "cd"] default_candidates)
    = 44%N /\
  (forall text', _detect_delim_from_text text' default_candidates
                 ∈ default_candidates) /\
  (forall head_lines',
     default 44%N (_detect_delimiter head_lines' default_candidates)
     ∈ default_candidates).
Proof.
  apply (comma_when_no_candidate_occurs (lit "ab" ++ [10%N] ++ lit "cd")
           [lit "ab"; lit "cd"]); by apply (bool_decide_unpack _).
Defined.

Lemma all_attempts_fail_one_error_witness :
  exists msg,
    robust_read_csv always_fails (Return (lit "a,b" ++ [10%N] ++ lit "c,d"))
      (fun s => s) [lit "a,b"; lit "c,d"]
      = Raise (RuntimeError msg (Some tt)) /\
    msg = Could_not_parse (lit ",") (Some 1) tt tt (Some tt) tt /\
    error_lines msg =
      [ (Plain_read_csv, Some tt); (Quote_escape_read, Some tt);
        (Regex_outside_quotes, Some tt); (Normalized_text_parse, Some tt) ].
Proof.
  apply (all_attempts_fail_one_error always_fails
           (Return (lit "a,b" ++ [10%N] ++ lit "c,d")) (fun s => s)
           [lit "a,b"; lit "c,d"] tt tt tt tt); reflexivity.
Defined.

(** ** Further facts *)

Section Further.
Context {X : Type}.

(** The header the loader builds has the expected width. *)
Lemma force_width_columns (header : row)
    (body : list row) (expected_cols : Z)
    (merge_into delim : option str) (df : DataFrame) (out : list printed) :
  0 <= expected_cols ->
  force_width (X:=X) (header :: body) expected_cols merge_into delim
    = Return (df, out) ->
  Z.of_nat (length (columns df)) = expected_cols.
Proof.
  intros Hec. unfold force_width.
  destruct (fix_rows _ _ _ body) as [st|e]; simpl; [|done].
  unfold pd_DataFrame. destruct (forallb _ _); simpl; [|done].
  intros [= <- _]. simpl. by apply normalize_header_length.
Qed.

(** Normalising the frame a loader returned gives that frame again. *)
Lemma force_width_idempotent (header : row)
    (body : list row) (expected_cols : Z)
    (merge_into delim : option str) (df : DataFrame) (out : list printed) :
  1 <= expected_cols ->
  force_width (X:=X) (header :: body) expected_cols merge_into delim
    = Return (df, out) ->
  force_width (X:=X) (columns df :: data df) expected_cols merge_into delim
    = Return (df, [Loaded (length (data df)) expected_cols delim]).
Proof.
  intros Hec Hdf.
  assert (Hcols : Z.of_nat (length (columns df)) = expected_cols)
    by (eapply force_width_columns; [|exact Hdf]; lia).
  destruct (force_width_rectangular (X:=X) (header :: body) expected_cols
              merge_into delim Hec) as (df' & out' & Hdf' & Hall & _).
  rewrite Hdf in Hdf'. injection Hdf' as <- <-.
  unfold force_width. rewrite normalize_header_exact by done.
  rewrite fix_rows_exact by done. simpl.
  rewrite pd_DataFrame_rectangular.
  - simpl. by destruct df.
  - eapply Forall_impl; [exact Hall|]. simpl. intros r Hr. lia.
Qed.

Variable bytes_decode : str -> bool -> list byte -> res X str.
Variable csv_reader : str -> str -> res X (list row).

(** The resilient loader forces the width in the same way once the text
    is decoded and tokenised. *)
Lemma load_csv_force_width_resilient_rectangular (raw : list byte)
    (text : str) (rows : list row) (expected_cols : Z)
    (merge_into delimiter : option str) :
  1 <= expected_cols ->
  _decode_text_safely bytes_decode raw default_encodings = Return text ->
  (forall delim, csv_reader text delim = Return rows) ->
  exists df out,
    load_csv_force_width_resilient bytes_decode csv_reader raw expected_cols
      merge_into delimiter = Return (df, out) /\
    Forall (fun r => Z.of_nat (length r) = expected_cols) (data df) /\
    length (data df) = length (tail rows).
Proof.
  intros Hec Htext Hcsv. unfold load_csv_force_width_resilient.
  rewrite Htext. simpl. rewrite Hcsv. simpl.
  by apply force_width_rectangular.
Qed.

End Further.

(** A candidate that occurs in no line is scored all the same: its modal
    count is 0 and its variance is 0. *)
Lemma Counter_of_zeros (counts : list Z) :
  Forall (fun c => c = 0) counts -> forall n,
  foldl (fun cnt c => counter_add c cnt) [(0, n)] counts
  = [(0, (n + length counts)%nat)].
Proof.
  induction 1 as [|c counts -> _ IH]; intros n; simpl.
  - by rewrite Nat.add_0_r.
  - rewrite IH.
    replace (S n + length counts)%nat with (n + S (length counts))%nat by lia.
    reflexivity.
Qed.

Lemma mode_of_zeros (counts : list Z) :
  Forall (fun c => c = 0) counts -> mode_of counts = 0.
Proof.
  intros H. unfold mode_of, Counter.
  destruct H as [|c counts -> H]; [done|]. simpl.
  by rewrite Counter_of_zeros.
Qed.

Lemma score_of_absent_zero (lines : list str) (d : char) :
  Forall (fun ln => count d ln = 0) lines ->
  (score lines d).1 = 0 /\ ((score lines d).2 == 0)%Q.
Proof.
  intros H.
  assert (Hz : Forall (fun c => c = 0) (count d <$> lines)).
  { induction H as [|ln lines Hln _ IH]; [constructor|].
    rewrite fmap_cons. by constructor. }
  unfold score. simpl. rewrite mode_of_zeros by done. split; [done|].
  unfold variance.
  replace (foldr Z.add 0 ((fun c => (c - 0) ^ 2) <$> (count d <$> lines)))
    with 0.
  - reflexivity.
  - induction Hz as [|c counts -> _ IH]; [done|].
    rewrite fmap_cons. simpl. by rewrite <- IH.
Qed.

(** *** The loaders at work *)

Example loader_reshapes_ragged_rows :
  load_csv_force_width (reads ragged_rows) 3 None [lit "utf-8"; lit "latin1"] =
  Return ({| columns := [lit "h1"; lit "h2"; lit "h3"];
             data := [ [lit "a"; lit "b"; lit "c,c,d"];
                       [lit "a"; lit ""; lit ""];
                       [lit "a"; lit "b"; lit "c"] ] |},
          [Loaded 3 3 None; Merged_rows 3 1; Padded_rows 3 1]).
Proof. reflexivity. Qed.

Example loader_names_missing_columns :
  load_csv_force_width (reads [[lit "id"]; [lit "7"; lit "x"; lit "y"; lit ""]])
    3 (Some (lit "__placeholder_0")) [lit "utf-8"; lit "latin1"] =
  Return ({| columns :=
               [lit "id"; lit "__placeholder_0"; lit "__placeholder_1"];
             data := [[lit "7"; lit "x,y"; lit "y"]] |},
          [Loaded 1 3 None; Merged_rows 3 1]).
Proof. reflexivity. Qed.

Example loader_gives_up_on_unreadable_file :
  load_csv_force_width (fun _ => Raise tt) 3 None [lit "utf-8"; lit "latin1"] =
  Raise (RuntimeError
           (Could_not_read [lit "utf-8"; lit "latin1"] (Some tt)) None).
Proof. reflexivity. Qed.

(** * Further properties of the code *)

(** [rstrip] removes trailing separators and nothing else. *)
Lemma rstrip_spec (c : char) (s : str) :
  exists k : nat, rstrip c s ++ replicate k c = s.
Proof.
  induction s as [|x s [k IH]]; [by exists 0%nat|]. simpl.
  destruct (rstrip c s) as [|y t] eqn:Hr.
  - case_decide as Hx.
    + exists (S k). simpl in *. by rewrite Hx, IH.
    + exists k. simpl in *. by rewrite IH.
  - exists k. simpl in *. by rewrite IH.
Qed.

Lemma lit_inj (s t : string) : lit s = lit t -> s = t.
Proof.
  unfold lit. intros H.
  rewrite <- (string_of_list_ascii_of_string s),
          <- (string_of_list_ascii_of_string t).
  f_equal. revert H.
  generalize (list_ascii_of_string s) (list_ascii_of_string t).
  intros l. induction l as [|a l IH]; intros [|b k]; simpl; try done.
  intros [= Hab Hlk]. f_equal; [|by apply IH].
  by rewrite <- (ascii_N_embedding a), <- (ascii_N_embedding b), Hab.
Qed.

Lemma str_of_nat_inj (n m : nat) : str_of_nat n = str_of_nat m -> n = m.
Proof.
  unfold str_of_nat. intros H%lit_inj.
  assert (Hnil : forall k, Nat.to_uint k <> Decimal.Nil).
  { intros k Hk. pose proof (DecimalNat.Unsigned.of_to k) as Hof.
    rewrite Hk in Hof. simpl in Hof. subst k. discriminate. }
  apply DecimalNat.Unsigned.to_uint_inj.
  pose proof (NilZero.usu _ (Hnil n)) as Hn.
  pose proof (NilZero.usu _ (Hnil m)) as Hm.
  rewrite H in Hn. congruence.
Qed.

Section WidthExtras.
Context {X : Type}.
Variable read_rows : str -> res X (list row).
Implicit Types (r kept header : row) (body : list row).
Implicit Types (expected_cols : Z).

(** X1. For a width that is not negative the normalised header has
    exactly that many names: the names of the original header keep their
    positions, and the positions the original header does not reach hold
    the placeholders numbered from 0. *)
Theorem header_names_kept_and_padded header expected_cols :
  0 <= expected_cols ->
  Z.of_nat (length (normalize_header header expected_cols)) = expected_cols /\
  (forall (i : nat) name,
     Z.of_nat i < expected_cols -> header !! i = Some name ->
     normalize_header header expected_cols !! i = Some name) /\
  (forall i : nat,
     (length header <= i)%nat -> Z.of_nat i < expected_cols ->
     normalize_header header expected_cols !! i
     = Some (lit "__placeholder_" ++ str_of_nat (i - length header))).
Proof.
  intros Hec. split; [by apply normalize_header_length|].
  unfold normalize_header.
  destruct (Z.ltb_spec (Z.of_nat (length header)) expected_cols).
  - split.
    + intros i name _ Hi. by apply lookup_app_l_Some.
    + intros i Hi Hlt. rewrite lookup_app_r by done.
      rewrite list_lookup_fmap, lookup_seq_lt by lia. reflexivity.
  - destruct (Z.ltb_spec expected_cols (Z.of_nat (length header)))
      as [Hlong|Hnot].
    + rewrite slice_upto_take by done. split.
      * intros i name Hi Hname. rewrite lookup_take_lt by lia. done.
      * intros i Hi Hlt. lia.
    + split; [done|]. intros i Hi Hlt. lia.
Qed.

(** X2. The placeholder names a header is padded with are pairwise
    different, whatever the width. *)
Theorem placeholders_distinct header expected_cols :
  NoDup (drop (length header) (normalize_header header expected_cols)).
Proof.
  unfold normalize_header.
  destruct (Z.ltb_spec (Z.of_nat (length header)) expected_cols)
    as [Hshort|Hnot].
  - rewrite drop_app_length. apply NoDup_fmap_2_strong; [|apply NoDup_seq].
    intros i j _ _ Hij. apply app_inv_head in Hij. by apply str_of_nat_inj.
  - rewrite drop_ge; [apply NoDup_nil_2|].
    destruct (Z.ltb_spec expected_cols (Z.of_nat (length header))); [|done].
    unfold slice_upto. rewrite length_take. lia.
Qed.

(** X3. When the width is at least one the loader returns one row for
    each body row, in the order of the body: a row of exactly the width
    is returned as it is, a row that is not longer keeps all its fields
    in place, and a longer row keeps in place its first [expected_cols]
    fields except the one in the merge column. *)
Theorem rows_stay_in_place header body expected_cols
    (merge_into delim : option str) :
  1 <= expected_cols ->
  exists df out,
    force_width (X:=X) (header :: body) expected_cols merge_into delim
      = Return (df, out) /\
    columns df = normalize_header header expected_cols /\
    length (data df) = length body /\
    forall (i : nat) r, body !! i = Some r ->
      exists kept,
        data df !! i = Some kept /\
        (Z.of_nat (length r) = expected_cols -> kept = r) /\
        (Z.of_nat (length r) <= expected_cols ->
         forall (j : nat) x, r !! j = Some x -> kept !! j = Some x) /\
        (forall (j : nat) x,
           Z.of_nat j < expected_cols ->
           j <> Z.to_nat (target_index merge_into
                            (normalize_header header expected_cols)
                            expected_cols) ->
           r !! j = Some x -> kept !! j = Some x).
Proof.
  intros Hec. eexists _, _. split; [by apply force_width_reshaped|]. simpl.
  split; [done|]. split; [by rewrite length_fmap|].
  intros i r Hr. eexists. split; [by rewrite list_lookup_fmap, Hr|].
  unfold reshaped.
  destruct (Z.eqb_spec (Z.of_nat (length r)) expected_cols); [by repeat split|].
  destruct (Z.ltb_spec expected_cols (Z.of_nat (length r))).
  - split; [lia|]. split; [lia|]. intros j x Hj Hne Hx.
    rewrite list_lookup_insert_ne by done. rewrite lookup_take_lt by lia. done.
  - split; [lia|]. split.
    + intros _ j x Hx. by apply lookup_app_l_Some.
    + intros j x _ _ Hx. by apply lookup_app_l_Some.
Qed.

(** X4. In the row returned for a body row that is too long, the merge
    column holds the field that was there, a comma and the comma-join of
    the fields from position [expected_cols - 1] on; only commas at the
    very end are removed from it. *)
Theorem long_row_merge_column header body expected_cols
    (merge_into delim : option str) (df : DataFrame) (out : list printed)
    (i : nat) r :
  1 <= expected_cols ->
  force_width (X:=X) (header :: body) expected_cols merge_into delim
    = Return (df, out) ->
  body !! i = Some r ->
  expected_cols < Z.of_nat (length r) ->
  exists kept old merged (k : nat),
    data df !! i = Some kept /\
    r !! Z.to_nat (target_index merge_into
                     (normalize_header header expected_cols) expected_cols)
      = Some old /\
    kept !! Z.to_nat (target_index merge_into
                        (normalize_header header expected_cols) expected_cols)
      = Some merged /\
    merged ++ replicate k 44%N
      = old ++ lit "," ++
        join (lit ",") (drop (Z.to_nat (expected_cols - 1)) r).
Proof.
  intros Hec Hdf Hr Hlong.
  rewrite force_width_reshaped in Hdf by done. injection Hdf as <- <-. simpl.
  pose proof (normalize_header_length header expected_cols ltac:(lia)) as Hh.
  pose proof (target_index_range merge_into _ expected_cols Hec Hh) as Hti.
  set (p := Z.to_nat (target_index merge_into
                        (normalize_header header expected_cols) expected_cols)).
  fold p.
  destruct (lookup_lt_is_Some_2 r p ltac:(lia)) as [old Hold].
  destruct (rstrip_spec 44%N
              (old ++ lit "," ++
               join (lit ",") (drop (Z.to_nat (expected_cols - 1)) r)))
    as [k Hk].
  eexists _, old, _, k. split; [by rewrite list_lookup_fmap, Hr|].
  split; [done|]. unfold reshaped.
  destruct (Z.eqb_spec (Z.of_nat (length r)) expected_cols); [lia|].
  destruct (Z.ltb_spec expected_cols (Z.of_nat (length r))); [|lia].
  rewrite Hold. simpl. split; [|exact Hk].
  apply list_lookup_insert_eq. rewrite length_take. lia.
Qed.

(** X5. When the width is at least one the loader prints the number of
    body rows, then the number of rows that were too long if there is
    one, then the number of rows that were too short if there is one. *)
Theorem report_counts_rows header body expected_cols
    (merge_into delim : option str) :
  1 <= expected_cols ->
  exists df,
    force_width (X:=X) (header :: body) expected_cols merge_into delim =
    Return
      (df,
       [Loaded (length body) expected_cols delim]
       ++ (if count_long expected_cols body =? 0 then []
           else [Merged_rows expected_cols (count_long expected_cols body)])
       ++ (if count_short expected_cols body =? 0 then []
           else [Padded_rows expected_cols (count_short expected_cols body)])).
Proof. intros Hec. eexists. by apply force_width_reshaped. Qed.

(** X6. A merge target that is the empty string or is not among the
    names of the normalised header (a name the truncation cut off
    included) is ignored: the loader does what it does without a merge
    target. *)
Theorem unknown_merge_target_ignored (rows : list row) expected_cols
    (m : str) (delim : option str) :
  m = [] \/ m ∉ normalize_header (default [] (head rows)) expected_cols ->
  force_width (X:=X) rows expected_cols (Some m) delim
  = force_width (X:=X) rows expected_cols None delim.
Proof.
  intros Hm. destruct rows as [|header body]; [done|]. simpl in Hm.
  unfold force_width.
  replace (target_index (Some m) (normalize_header header expected_cols)
             expected_cols)
    with (target_index None (normalize_header header expected_cols)
            expected_cols); [done|].
  unfold target_index, contains. destruct Hm as [->|Hm].
  - by rewrite bool_decide_eq_false_2 by (intros H; by apply H).
  - by rewrite (bool_decide_eq_false_2 (m ∈ _)), andb_false_r by done.
Qed.

(** X7. [load_csv_force_width] uses the rows of the first encoding with
    which the file can be read; the encodings after it are not tried. *)
Theorem first_readable_encoding_used (tried later : list str) (enc : str)
    (rows : list row) expected_cols (merge_into : option str) :
  Forall (fun e => exists x, read_rows e = Raise x) tried ->
  read_rows enc = Return rows ->
  load_csv_force_width read_rows expected_cols merge_into
    (tried ++ enc :: later)
  = force_width rows expected_cols merge_into None.
Proof.
  intros Htried Henc. unfold load_csv_force_width.
  assert (H : forall all last_err,
            read_first read_rows all (tried ++ enc :: later) last_err
            = Return rows).
  { intros all. induction Htried as [|e tried [x He] _ IH]; intros last_err;
      simpl.
    - by rewrite Henc.
    - rewrite He. apply IH. }
  by rewrite H.
Qed.

(** X8. When the file can be read with none of the encodings the loader
    raises a [RuntimeError] that names all the encodings and the
    exception of the last one; with no encoding to try it names no
    exception. *)
Theorem unreadable_file_runtime_error (encoding_try : list str)
    expected_cols (merge_into : option str) :
  Forall (fun e => exists x, read_rows e = Raise x) encoding_try ->
  load_csv_force_width read_rows expected_cols merge_into encoding_try
  = Raise (RuntimeError
             (Could_not_read encoding_try
                (enc ← last encoding_try;
                 match read_rows enc with
                 | Raise x => Some x
                 | Return _ => None
                 end))
             None).
Proof.
  intros Hall. unfold load_csv_force_width.
  assert (H : forall all last_err,
            read_first read_rows all encoding_try last_err
            = Raise (RuntimeError
                       (Could_not_read all
                          (match last encoding_try with
                           | Some enc =>
                               match read_rows enc with
                               | Raise x => Some x
                               | Return _ => None
                               end
                           | None => last_err
                           end))
                       None)).
  { intros all. induction Hall as [|e encs [x He] Hall IH]; intros last_err;
      simpl; [done|].
    rewrite He, IH. destruct encs as [|e' encs]; simpl; [by rewrite He|].
    destruct (last (e' :: encs)) eqn:Hlast; [done|].
    by apply last_None in Hlast. }
  rewrite H. simpl. by destruct (last encoding_try).
Qed.

(** X9. With a width of zero the loader returns the body unchanged under
    an empty header when no body row has a field, and raises
    [IndexError] as soon as one has. *)
Theorem zero_width_rows header body (merge_into delim : option str) :
  (Forall (fun r => r = []) body ->
   force_width (X:=X) (header :: body) 0 merge_into delim
   = Return ({| columns := []; data := body |}, [Loaded (length body) 0 delim]))
  /\
  (Exists (fun r => r <> []) body ->
   force_width (X:=X) (header :: body) 0 merge_into delim = Raise IndexError).
Proof.
  assert (Hh : normalize_header header 0 = []).
  { unfold normalize_header. destruct header; [done|]. simpl.
    by rewrite slice_upto_take by lia. }
  assert (Hti : target_index merge_into [] 0 = -1).
  { unfold target_index. destruct merge_into as [m|]; [|done].
    unfold contains. rewrite (bool_decide_eq_false_2 (m ∈ [])), andb_false_r;
      [done | apply not_elem_of_nil]. }
  unfold force_width. rewrite Hh, Hti. split.
  - intros Hall. rewrite fix_rows_exact.
    + simpl. rewrite pd_DataFrame_rectangular; [done|].
      eapply Forall_impl; [exact Hall|]. by intros r ->.
    + eapply Forall_impl; [exact Hall|]. by intros r ->.
  - intros Hex.
    assert (H : forall st,
              fix_rows (X:=X) 0 (-1) st body = Raise IndexError).
    { induction Hex as [r body Hr|r body _ IH]; intros st; simpl.
      - destruct r as [|x r]; [done | reflexivity].
      - destruct r as [|x r]; [apply IH | reflexivity]. }
    by rewrite H.
Qed.

End WidthExtras.

(** ** The byte decoder, path by path *)

Lemma replace_nul_filter (t : str) :
  replace 0%N [] t = filter (fun c => c <> 0%N) t.
Proof.
  unfold replace. induction t as [|c t IH]; [done|].
  change ((c :: t) ≫= _)
    with ((if decide (c = 0%N) then [] else [c])
          ++ (t ≫= fun x => if decide (x = 0%N) then [] else [x])).
  rewrite IH, filter_cons. by repeat case_decide.
Qed.

Section DecoderExtras.
Context {X : Type}.
Variable bytes_decode : str -> bool -> list byte -> res X str.

Lemma decode_first_uses_first all raw (tried later : list str) (enc : str)
    (t : str) : forall last_err,
  Forall (fun e => exists x, bytes_decode e true raw = Raise x) tried ->
  bytes_decode enc true raw = Return t ->
  decode_first bytes_decode all raw (tried ++ enc :: later) last_err
  = Return (replace 0%N [] t).
Proof.
  intros last_err Htried Henc. revert last_err.
  induction Htried as [|e tried [x He] _ IH]; intros last_err; simpl.
  - by rewrite Henc.
  - rewrite He. apply IH.
Qed.

Lemma decode_first_all_fail all raw (encodings : list str) : forall last_err,
  Forall (fun e => exists x, bytes_decode e true raw = Raise x) encodings ->
  decode_first bytes_decode all raw encodings last_err
  = Raise (RuntimeError
             (Could_not_decode all
                (match last encodings with
                 | Some enc =>
                     match bytes_decode enc true raw with
                     | Raise x => Some x
                     | Return _ => None
                     end
                 | None => last_err
                 end))
             None).
Proof.
  intros last_err Hall. revert last_err.
  induction Hall as [|e encs [x He] Hall IH]; intros last_err; simpl; [done|].
  rewrite He, IH. destruct encs as [|e' encs]; simpl; [by rewrite He|].
  destruct (last (e' :: encs)) eqn:Hlast; [done|].
  by apply last_None in Hlast.
Qed.

(** X10. An input that starts with a UTF-16 byte-order mark and that the
    UTF-16 codec decodes is returned as that text without its null
    characters, whatever its length and whatever encodings are listed:
    the listed encodings are not consulted. *)
Theorem bom_input_decoded_as_utf16 (raw rest : list byte) (t : str)
    (encodings : list str) :
  raw = [xff; xfe] ++ rest \/ raw = [xfe; xff] ++ rest ->
  bytes_decode (lit "utf-16") false raw = Return t ->
  _decode_text_safely bytes_decode raw encodings
  = Return (filter (fun c => c <> 0%N) t).
Proof.
  intros Hbom Hdec. unfold _decode_text_safely.
  assert (Hlooks : _looks_utf16 raw = true).
  { unfold _looks_utf16.
    destruct Hbom as [->| ->].
    - replace (startswith [xff; xfe] ([xff; xfe] ++ rest)) with true; [done|].
      symmetry. apply startswith_spec. by exists rest.
    - replace (startswith [xfe; xff] ([xfe; xff] ++ rest)) with true;
        [by rewrite orb_true_r|].
      symmetry. apply startswith_spec. by exists rest. }
  by rewrite Hlooks, Hdec, replace_nul_filter.
Qed.

(** X11. When the input does not look like UTF-16, or looks like it but
    the UTF-16 codec raises, the decoder returns the text of the first
    listed encoding that decodes, without its null characters; a failure
    of the UTF-16 codec is not passed on. *)
Theorem first_decoding_encoding_used (raw : list byte)
    (tried later : list str) (enc : str) (t : str) :
  _looks_utf16 raw = false \/
    (exists x, bytes_decode (lit "utf-16") false raw = Raise x) ->
  Forall (fun e => exists x, bytes_decode e true raw = Raise x) tried ->
  bytes_decode enc true raw = Return t ->
  _decode_text_safely bytes_decode raw (tried ++ enc :: later)
  = Return (filter (fun c => c <> 0%N) t).
Proof.
  intros Hutf Htried Henc. unfold _decode_text_safely.
  rewrite (decode_first_uses_first _ raw tried later enc t) by done.
  rewrite replace_nul_filter.
  destruct Hutf as [->|[x ->]]; [done|]. by destruct (_looks_utf16 raw).
Qed.

(** X12. The decoder raises only when the UTF-16 path gives no text and
    every listed encoding raises; it then raises a [RuntimeError] that
    names all the listed encodings and the exception of the last one. *)
Theorem undecodable_bytes_runtime_error (raw : list byte)
    (encodings : list str) :
  _looks_utf16 raw = false \/
    (exists x, bytes_decode (lit "utf-16") false raw = Raise x) ->
  Forall (fun e => exists x, bytes_decode e true raw = Raise x) encodings ->
  _decode_text_safely bytes_decode raw encodings
  = Raise (RuntimeError
             (Could_not_decode encodings
                (enc ← last encodings;
                 match bytes_decode enc true raw with
                 | Raise x => Some x
                 | Return _ => None
                 end))
             None).
Proof.
  intros Hutf Hall. unfold _decode_text_safely.
  rewrite (decode_first_all_fail _ raw encodings None Hall).
  replace (match last encodings with
           | Some enc =>
               match bytes_decode enc true raw with
               | Raise x => Some x
               | Return _ => None
               end
           | None => None
           end)
    with (enc ← last encodings;
          match bytes_decode enc true raw with
          | Raise x => Some x
          | Return _ => None
          end) by (by destruct (last encodings)).
  destruct Hutf as [->|[x ->]]; [done|]. by destruct (_looks_utf16 raw).
Qed.

(** X13. The outcomes of the decoder. When opening or reading the file
    raises, that exception is raised as it is. Once the bytes are read
    the decoder raises nothing but its [RuntimeError], and a text it
    returns is the text some codec returned for these bytes with the null
    characters taken out and every other character kept in its place. *)
Theorem decoder_outcomes (read : res X (list byte)) (encodings : list str) :
  (exists x,
     read = Raise x /\
     _decode_text_safely_path bytes_decode read encodings
     = Raise (Uncaught x)) \/
  (exists raw t enc replacing,
     read = Return raw /\
     bytes_decode enc replacing raw = Return t /\
     (enc = lit "utf-16" /\ replacing = false /\ _looks_utf16 raw = true \/
      (enc ∈ encodings) /\ replacing = true) /\
     _decode_text_safely_path bytes_decode read encodings
     = Return (filter (fun c => c <> 0%N) t)) \/
  (exists raw last_err,
     read = Return raw /\
     Forall (fun e => exists x, bytes_decode e true raw = Raise x) encodings /\
     _decode_text_safely_path bytes_decode read encodings
     = Raise (RuntimeError (Could_not_decode encodings last_err) None)).
Proof.
  destruct read as [raw|x]; [right | left; by exists x].
  assert (Hfirst : forall pre encs last_err,
    Forall (fun e => exists x, bytes_decode e true raw = Raise x) pre ->
    (exists t enc,
       (enc ∈ encs) /\
       bytes_decode enc true raw = Return t /\
       decode_first bytes_decode encodings raw encs last_err
       = Return (filter (fun c => c <> 0%N) t)) \/
    (exists last_err',
       Forall (fun e => exists x, bytes_decode e true raw = Raise x)
         (pre ++ encs) /\
       decode_first bytes_decode encodings raw encs last_err
       = Raise (RuntimeError (Could_not_decode encodings last_err') None))).
  { intros pre encs. revert pre.
    induction encs as [|enc encs IH]; intros pre last_err Hpre; simpl.
    - right. eexists. by rewrite app_nil_r.
    - destruct (bytes_decode enc true raw) as [t|x] eqn:Hdec.
      + left. exists t, enc. rewrite replace_nul_filter.
        split; [apply list_elem_of_here | done].
      + destruct (IH (pre ++ [enc]) (Some x)) as [(t & e & He & ? & ?)|(l & Hl & ?)].
        * apply Forall_app. split; [done|]. repeat constructor. by exists x.
        * left. exists t, e. split; [by apply list_elem_of_further | done].
        * right. exists l. by rewrite <- app_assoc in Hl. }
  simpl. unfold _decode_text_safely.
  destruct (_looks_utf16 raw) eqn:Hlooks.
  - destruct (bytes_decode (lit "utf-16") false raw) as [t|x] eqn:Hdec.
    + left. exists raw, t, (lit "utf-16"), false.
      rewrite replace_nul_filter. repeat split; try done. by left.
    + destruct (Hfirst [] encodings None) as [(t & enc & ? & ? & ?)|(l & ? & ?)];
        [constructor | left | right].
      * exists raw, t, enc, true. repeat split; try done. by right.
      * by exists raw, l.
  - destruct (Hfirst [] encodings None) as [(t & enc & ? & ? & ?)|(l & ? & ?)];
      [constructor | left | right].
    + exists raw, t, enc, true. repeat split; try done. by right.
    + by exists raw, l.
Qed.

End DecoderExtras.

(** ** The inferencer: modal counts and variances *)

Lemma counter_add_keys (c : Z) (cnt : list (Z * nat)) :
  (counter_add c cnt).*1
  = if decide (c ∈ cnt.*1) then cnt.*1 else cnt.*1 ++ [c].
Proof.
  induction cnt as [|[k n] cnt IH].
  - destruct (decide (c ∈ [].*1)) as [Hc|Hc]; [|done].
    by apply elem_of_nil in Hc.
  - change (((k, n) :: cnt).*1) with (k :: cnt.*1).
    change (counter_add c ((k, n) :: cnt))
      with (if decide (k = c) then (k, S n) :: cnt
            else (k, n) :: counter_add c cnt).
    destruct (decide (k = c)) as [->|Hk].
    + destruct (decide (c ∈ c :: cnt.*1)) as [Hc|Hc]; [done|].
      destruct Hc. apply list_elem_of_here.
    + rewrite fmap_cons, IH. simpl.
      destruct (decide (c ∈ cnt.*1)) as [Hc|Hc];
        destruct (decide (c ∈ k :: cnt.*1)) as [Hc'|Hc']; try done.
      * destruct Hc'. by apply list_elem_of_further.
      * apply elem_of_cons in Hc' as [->|Hc']; [done|]. by destruct Hc.
Qed.

Lemma counter_add_NoDup (c : Z) (cnt : list (Z * nat)) :
  NoDup cnt.*1 -> NoDup (counter_add c cnt).*1.
Proof.
  intros Hnd. rewrite counter_add_keys. case_decide; [done|].
  apply NoDup_app. split; [done|]. split; [|apply NoDup_singleton].
  intros k Hk Hk'. apply list_elem_of_singleton in Hk'. congruence.
Qed.

Lemma counter_add_multiplicity (c k : Z) (cnt : list (Z * nat)) :
  multiplicity k (counter_add c cnt)
  = (multiplicity k cnt + if decide (k = c) then 1 else 0)%nat.
Proof.
  induction cnt as [|[k' n] cnt IH]; simpl.
  - destruct (decide (c = k)), (decide (k = c)); congruence || done.
  - destruct (decide (k' = c)) as [->|Hk']; simpl.
    + destruct (decide (c = k)), (decide (k = c)); try congruence; lia.
    + destruct (decide (k' = k)) as [->|Hk]; [|done].
      rewrite decide_False by congruence. lia.
Qed.

Lemma multiplicity_elem (k : Z) (n : nat) (cnt : list (Z * nat)) :
  NoDup cnt.*1 -> (k, n) ∈ cnt -> multiplicity k cnt = n.
Proof.
  induction cnt as [|[k' n'] cnt IH]; simpl.
  - intros _ H. by apply elem_of_nil in H.
  - intros [Hk' Hnd]%NoDup_cons [[= -> ->]|Hin]%elem_of_cons.
    + by rewrite decide_True.
    + rewrite decide_False; [by apply IH|].
      intros ->. apply Hk'. apply list_elem_of_fmap. by exists (k, n).
Qed.

Lemma occurrences_app (c : Z) (l k : list Z) :
  occurrences c (l ++ k) = (occurrences c l + occurrences c k)%nat.
Proof. unfold occurrences. by rewrite filter_app, length_app. Qed.

Lemma occurrences_zero (c : Z) (l : list Z) : c ∉ l -> occurrences c l = 0%nat.
Proof.
  unfold occurrences. induction l as [|x l IH]; [done|].
  rewrite not_elem_of_cons, filter_cons. intros [? ?].
  rewrite decide_False by congruence. by apply IH.
Qed.

(** A [Counter] has one key for each value counted and holds for it the
    number of its occurrences. *)
Lemma Counter_spec (counts : list Z) :
  NoDup (Counter counts).*1 /\
  (forall k, k ∈ (Counter counts).*1 <-> k ∈ counts) /\
  (forall k, multiplicity k (Counter counts) = occurrences k counts).
Proof.
  unfold Counter. induction counts as [|c counts IH] using rev_ind.
  - simpl. split; [apply NoDup_nil_2|]. split; [done|]. done.
  - destruct IH as (Hnd & Hkeys & Hmult). rewrite foldl_app. simpl.
    split; [by apply counter_add_NoDup|]. split.
    + intros k. rewrite counter_add_keys, elem_of_app, list_elem_of_singleton.
      case_decide as Hc.
      * rewrite Hkeys. split; [by left|]. intros [?| ->]; [done|].
        by apply Hkeys.
      * by rewrite elem_of_app, list_elem_of_singleton, Hkeys.
    + intros k. rewrite counter_add_multiplicity, Hmult, occurrences_app.
      f_equal. unfold occurrences. rewrite filter_cons, filter_nil.
      destruct (decide (k = c)), (decide (c = k)); congruence || done.
Qed.

Lemma first_max_spec (items : list (Z * nat)) : forall best,
  (first_max best items ∈ best :: items) /\
  forall it, it ∈ best :: items -> (it.2 <= (first_max best items).2)%nat.
Proof.
  induction items as [|item items IH]; intros best; simpl.
  - split; [apply list_elem_of_here|].
    intros it Hit. apply list_elem_of_singleton in Hit. by subst.
  - destruct (IH (if (best.2 <? item.2)%nat then item else best))
      as [Hin Hmax].
    split.
    + apply elem_of_cons in Hin as [->|Hin].
      * destruct (best.2 <? item.2)%nat;
          [apply list_elem_of_further, list_elem_of_here
          | apply list_elem_of_here].
      * by do 2 apply list_elem_of_further.
    + intros it Hit.
      assert (Hb : ((if (best.2 <? item.2)%nat then item else best).2
                    <= (first_max (if (best.2 <? item.2)%nat then item else best)
                          items).2)%nat)
        by apply Hmax, list_elem_of_here.
      apply elem_of_cons in Hit as [->|Hit];
        [|apply elem_of_cons in Hit as [->|Hit]].
      * destruct (Nat.ltb_spec best.2 item.2); lia.
      * destruct (Nat.ltb_spec best.2 item.2); lia.
      * by apply Hmax, list_elem_of_further.
Qed.

Lemma mode_of_spec (counts : list Z) :
  counts <> [] ->
  (mode_of counts ∈ counts) /\
  forall c, (occurrences c counts <= occurrences (mode_of counts) counts)%nat.
Proof.
  intros Hne. destruct (Counter_spec counts) as (Hnd & Hkeys & Hmult).
  unfold mode_of. destruct (Counter counts) as [|item items] eqn:Hcnt.
  - destruct counts as [|c counts]; [done|].
    specialize (Hkeys c). simpl in Hkeys.
    assert (Hc : c ∈ c :: counts) by apply list_elem_of_here.
    apply Hkeys in Hc. by apply elem_of_nil in Hc.
  - destruct (first_max_spec items item) as [Hin Hmax].
    set (m := first_max item items) in *.
    assert (Hm : multiplicity m.1 (item :: items) = m.2).
    { apply multiplicity_elem; [done|]. by destruct m. }
    split.
    + apply Hkeys. apply list_elem_of_fmap. by exists m.
    + intros c. rewrite <- !Hmult, Hm.
      destruct (decide (c ∈ (item :: items).*1)) as [Hc|Hc].
      * apply list_elem_of_fmap in Hc as ([k n] & -> & Hkn).
        pose proof (multiplicity_elem k n (item :: items) Hnd Hkn) as Hk.
        pose proof (Hmax (k, n) Hkn) as Hle.
        change ((k, n).1) with k. rewrite Hk. exact Hle.
      * rewrite Hmult, occurrences_zero; [lia|]. by rewrite <- Hkeys.
Qed.

(** X14. The modal count of a non-empty list of counts is one of the
    counts, and no value occurs among the counts more often than it. *)
Theorem mode_is_most_frequent (counts : list Z) :
  counts <> [] ->
  (mode_of counts ∈ counts) /\
  forall c, (occurrences c counts <= occurrences (mode_of counts) counts)%nat.
Proof. apply mode_of_spec. Qed.

Lemma sum_squares_nonneg (mode : Z) (counts : list Z) :
  0 <= foldr Z.add 0 ((fun c => (c - mode) ^ 2) <$> counts).
Proof.
  induction counts as [|c counts IH]; [done|].
  rewrite fmap_cons. cbn [foldr]. rewrite Z.pow_2_r.
  pose proof (Z.square_nonneg (c - mode)). lia.
Qed.

Lemma sum_squares_zero (mode : Z) (counts : list Z) :
  foldr Z.add 0 ((fun c => (c - mode) ^ 2) <$> counts) = 0
  <-> Forall (fun c => c = mode) counts.
Proof.
  induction counts as [|c counts IH].
  - split; [constructor | done].
  - pose proof (sum_squares_nonneg mode counts) as Hs.
    pose proof (Z.square_nonneg (c - mode)) as Hc.
    rewrite fmap_cons. cbn [foldr]. rewrite Z.pow_2_r.
    rewrite Forall_cons, <- IH. split.
    + intros H. split; [nia | lia].
    + intros [-> ->]. by rewrite Z.sub_diag.
Qed.

(** X15. The variance of the counts around the mode is never negative,
    and it is zero exactly when every count equals the mode. *)
Theorem variance_measures_spread (mode : Z) (counts : list Z) :
  (0 <= variance mode counts)%Q /\
  ((variance mode counts == 0)%Q <-> Forall (fun c => c = mode) counts).
Proof.
  unfold variance. rewrite <- sum_squares_zero.
  pose proof (sum_squares_nonneg mode counts) as Hs.
  set (s := foldr Z.add 0 ((fun c => (c - mode) ^ 2) <$> counts)) in *.
  set (n := Z.max (Z.of_nat (length counts)) 1).
  destruct (decide (s = 0)) as [->|Hne].
  - rewrite truediv_zero. split; [apply Qle_refl | done].
  - pose proof (truediv_pos s n ltac:(lia) ltac:(lia)) as Hpos.
    split; [by apply Qlt_le_weak|]. split; [|done].
    intros Hz. rewrite Hz in Hpos. by apply Qlt_irrefl in Hpos.
Qed.

(** ** The inferencer: which candidate wins *)

Lemma key_le_fst (a b : Z * Q) : key_le a b -> a.1 <= b.1.
Proof. intros [?|[? _]]; lia. Qed.

Lemma greatest_mode_first_best (lines : list str) (d res : char) :
  d ∈ default_candidates ->
  (forall d', d' ∈ default_candidates -> d' <> d ->
     mode_of (count d' <$> lines) < mode_of (count d <$> lines)) ->
  first_best lines default_candidates res -> res = d.
Proof.
  intros Hd Hgreat Hbest. apply first_best_greatest in Hbest as [Hres Hmax].
  destruct (decide (res = d)) as [|Hne]; [done|].
  pose proof (key_le_fst _ _ (Hmax d Hd)) as Hle. simpl in Hle.
  pose proof (Hgreat res Hres Hne). lia.
Qed.

Lemma mode_of_constant (k : Z) (counts : list Z) :
  counts <> [] -> Forall (fun c => c = k) counts -> mode_of counts = k.
Proof.
  intros Hne Hall. destruct (mode_of_spec counts Hne) as [Hin _].
  rewrite Forall_forall in Hall. by apply Hall.
Qed.

(** X16. When one of the four candidates has a modal count per line
    that is greater than the modal count of each of the other three,
    both inferencers return it, whatever the variances are. *)
Theorem greatest_modal_count_wins (lines : list str) (d : char) :
  lines <> [] ->
  d ∈ default_candidates ->
  (forall d', d' ∈ default_candidates -> d' <> d ->
     mode_of (count d' <$> lines) < mode_of (count d <$> lines)) ->
  (forall sample_lines, nonblank sample_lines = lines ->
     _detect_delimiter sample_lines default_candidates = Some d) /\
  (forall text, sampled text = lines ->
     _detect_delim_from_text text default_candidates = d).
Proof.
  intros Hlines Hd Hgreat. split.
  - intros sample_lines Hs.
    destruct (_detect_delimiter_lines sample_lines) as (res & -> & Hbest);
      [by rewrite Hs|].
    rewrite Hs in Hbest. f_equal. by apply (greatest_mode_first_best lines).
  - intros text Hs.
    pose proof (_detect_delim_from_text_lines text) as Hbest.
    rewrite Hs in Hbest. by apply (greatest_mode_first_best lines), Hbest.
Qed.

(** X17. When every non-blank line holds one candidate the same number
    of times, at least once, and holds none of the other candidates,
    both inferencers return that candidate. *)
Theorem regular_delimiter_detected (lines : list str) (d : char) (k : Z) :
  lines <> [] ->
  d ∈ default_candidates ->
  1 <= k ->
  Forall (fun ln =>
            count d ln = k /\
            forall d', d' ∈ default_candidates -> d' <> d -> count d' ln = 0)
    lines ->
  (forall sample_lines, nonblank sample_lines = lines ->
     _detect_delimiter sample_lines default_candidates = Some d) /\
  (forall text, sampled text = lines ->
     _detect_delim_from_text text default_candidates = d).
Proof.
  intros Hlines Hd Hk Hall.
  assert (Hne : forall c : char, count c <$> lines <> []).
  { intros c. by destruct lines. }
  assert (Hgreat : forall d', d' ∈ default_candidates -> d' <> d ->
            mode_of (count d' <$> lines) < mode_of (count d <$> lines)).
  { intros d' Hd' Hdd'.
    rewrite (mode_of_constant 0), (mode_of_constant k); try done; try lia.
    - apply Forall_fmap. eapply Forall_impl; [exact Hall|]. by intros ln [? _].
    - apply Forall_fmap. eapply Forall_impl; [exact Hall|].
      intros ln [_ H]. by apply H. }
  split.
  - intros sample_lines Hs.
    destruct (_detect_delimiter_lines sample_lines) as (res & -> & Hbest);
      [by rewrite Hs|].
    rewrite Hs in Hbest. f_equal. by apply (greatest_mode_first_best lines).
  - intros text Hs.
    pose proof (_detect_delim_from_text_lines text) as Hbest.
    rewrite Hs in Hbest. by apply (greatest_mode_first_best lines), Hbest.
Qed.

(** X18. The two inferencers agree: on the first 200 lines of a text,
    [_detect_delimiter] with [None] replaced by the comma, as
    [robust_read_csv] does, returns what [_detect_delim_from_text]
    returns on the text, for any candidates. *)
Theorem inferencers_agree (text : str) (candidates : list char) :
  default 44%N
    (_detect_delimiter (slice_upto (splitlines false text) 200) candidates)
  = _detect_delim_from_text text candidates.
Proof.
  rewrite _detect_delimiter_unfold, _detect_delim_from_text_unfold.
  change (nonblank (slice_upto (splitlines false text) 200))
    with (sampled text).
  destruct (all_scores (sampled text) candidates) as [|item items]; [done|].
  by destruct (head (sorted_reverse (item :: items))).
Qed.

(** ** Lines of a text *)

Lemma match_not_10 {A} (x : char) (a b : A) :
  x <> 10%N ->
  match x with 10%N => a | _ => b end = b.
Proof.
  intros Hx. destruct x as [|p]; [done|].
  do 4 (destruct p as [p|p|]; try done).
Qed.

Lemma splitlines_from_cons (keepends : bool) (cur : str) (c : char) (s : str) :
  splitlines_from keepends cur (c :: s) =
    if islinebreak c then
      if bool_decide (c = 13%N /\ head s = Some 10%N) then
        (cur ++ (if keepends then [13%N; 10%N] else []))
          :: splitlines_from keepends [] (tail s)
      else
        (cur ++ (if keepends then [c] else []))
          :: splitlines_from keepends [] s
    else splitlines_from keepends (cur ++ [c]) s.
Proof.
  simpl. destruct (islinebreak c) eqn:Hc; [|done].
  destruct (decide (c = 13%N)) as [->|Hne].
  - destruct s as [|x s].
    + by rewrite bool_decide_eq_false_2 by (by intros [_ ?]).
    + destruct (decide (x = 10%N)) as [->|Hx].
      * by rewrite bool_decide_eq_true_2.
      * rewrite bool_decide_eq_false_2 by (intros [_ [= ?]]; done).
        by rewrite match_not_10.
  - rewrite bool_decide_eq_false_2 by (by intros [? _]).
    destruct c as [|p]; [done|].
    do 4 (destruct p as [p|p|]; try done).
Qed.

Lemma splitlines_from_body (cur body : str) :
  body_ok body ->
  splitlines_from true cur body
  = match cur ++ body with [] => [] | l => [l] end.
Proof.
  intros Hbody. revert cur.
  induction Hbody as [|c body Hc _ IH]; intros cur.
  - simpl. rewrite app_nil_r. by destruct cur.
  - rewrite splitlines_from_cons, Hc, IH, <- app_assoc. reflexivity.
Qed.

Lemma splitlines_from_line (cur body term rest : str) :
  body_ok body ->
  ends_line term rest ->
  splitlines_from true cur (body ++ term ++ rest)
  = (cur ++ body ++ term) :: splitlines_from true [] rest.
Proof.
  intros Hbody Hterm. revert cur.
  induction Hbody as [|c body Hc _ IH]; intros cur.
  - simpl. destruct Hterm as [->|(c & -> & Hc & Hnot)].
    + simpl app. rewrite splitlines_from_cons.
      change (islinebreak 13%N) with true. cbn iota.
      by rewrite bool_decide_eq_true_2.
    + simpl app. rewrite splitlines_from_cons, Hc.
      by rewrite bool_decide_eq_false_2.
  - simpl app. rewrite splitlines_from_cons, Hc, IH, <- app_assoc.
    reflexivity.
Qed.

(** A text has no line boundary, or starts with a line that a boundary
    ends. *)
Lemma first_line (s : str) :
  body_ok s \/
  exists body term rest,
    s = body ++ term ++ rest /\ body_ok body /\ ends_line term rest /\
    (length rest < length s)%nat.
Proof.
  induction s as [|c s IH]; [left; constructor|].
  destruct (islinebreak c) eqn:Hc.
  - right. destruct (decide (c = 13%N /\ head s = Some 10%N)) as [[-> Hs]|Hnot].
    + destruct s as [|x s]; [done|]. injection Hs as ->.
      exists [], [13%N; 10%N], s. repeat split; [constructor | by left|].
      simpl. lia.
    + exists [], [c], s. repeat split; [constructor | | simpl; lia].
      right. by exists c.
  - destruct IH as [Hbody|(body & term & rest & -> & Hbody & Hterm & Hlen)].
    + left. by constructor.
    + right. exists (c :: body), term, rest.
      repeat split; [by constructor | done |]. simpl. lia.
Qed.

Lemma ends_line_nonempty (term rest : str) : ends_line term rest -> term <> [].
Proof. by intros [->|(c & -> & _)]. Qed.

Lemma ends_line_no_quote (term rest : str) (c : char) :
  ends_line term rest -> islinebreak c = false -> c ∉ term.
Proof.
  intros [->|(x & -> & Hx & _)] Hc.
  - rewrite !not_elem_of_cons.
    repeat split; try (intros ->; by vm_compute in Hc).
    apply not_elem_of_nil.
  - rewrite not_elem_of_cons.
    split; [intros ->; congruence | apply not_elem_of_nil].
Qed.

(** Induction over a text line by line. *)
Lemma lines_ind (P : str -> Prop) :
  (forall s, body_ok s -> P s) ->
  (forall body term rest,
     body_ok body -> ends_line term rest -> P rest ->
     P (body ++ term ++ rest)) ->
  forall s, P s.
Proof.
  intros Hbody Hline s.
  remember (length s) as n eqn:Hn. revert s Hn.
  induction (lt_wf n) as [n _ IH]. intros s Hn.
  destruct (first_line s) as [?|(body & term & rest & -> & ? & ? & Hlen)].
  - by apply Hbody.
  - apply Hline; try done. apply (IH (length rest)); [lia | reflexivity].
Qed.

Lemma splitlines_body (s : str) :
  body_ok s ->
  splitlines true s = match s with [] => [] | l => [l] end.
Proof.
  intros Hs. unfold splitlines. rewrite splitlines_from_body by exact Hs.
  by destruct s.
Qed.

Lemma splitlines_line (body term rest : str) :
  body_ok body -> ends_line term rest ->
  splitlines true (body ++ term ++ rest)
  = (body ++ term) :: splitlines true rest.
Proof.
  intros Hb Ht. unfold splitlines.
  rewrite (splitlines_from_line [] body term rest Hb Ht). reflexivity.
Qed.

(** Joining the lines that [splitlines] keeps the ends of gives the text
    back. *)
Lemma concat_splitlines (s : str) : concat (splitlines true s) = s.
Proof.
  induction s as [s Hs|body term rest Hb Ht IH] using lines_ind.
  - rewrite splitlines_body by done. destruct s; [done|].
    simpl. by rewrite app_nil_r.
  - rewrite splitlines_line by done. simpl. by rewrite IH, <- app_assoc.
Qed.

Lemma splitlines_nonempty (s : str) : Forall (fun ln => ln <> []) (splitlines true s).
Proof.
  induction s as [s Hs|body term rest Hb Ht IH] using lines_ind.
  - rewrite splitlines_body by done. destruct s; by repeat constructor.
  - rewrite splitlines_line by done. constructor; [|done].
    apply ends_line_nonempty in Ht. by destruct body, term.
Qed.

(** ** The text repair of [robust_read_csv] *)

Lemma replace_app (c : char) (t l k : str) :
  replace c t (l ++ k) = replace c t l ++ replace c t k.
Proof. unfold replace. apply bind_app. Qed.

Lemma replace_cons (c : char) (t : str) (x : char) (l : str) :
  replace c t (x :: l) = (if decide (x = c) then t else [x]) ++ replace c t l.
Proof. reflexivity. Qed.

Lemma replace_absent (c : char) (t s : str) : c ∉ s -> replace c t s = s.
Proof.
  induction s as [|x s IH]; [done|].
  rewrite not_elem_of_cons, replace_cons. intros [Hx Hs].
  rewrite decide_False by congruence. by rewrite IH.
Qed.

Lemma replace_elem (c : char) (t s : str) (x : char) :
  x ∈ replace c t s -> (x ∈ s /\ x <> c) \/ x ∈ t.
Proof.
  induction s as [|y s IH]; [by intros ?%elem_of_nil|].
  rewrite replace_cons, elem_of_app. intros [Hx|Hx].
  - case_decide; [by right|]. apply list_elem_of_singleton in Hx as ->.
    left. split; [apply list_elem_of_here | done].
  - destruct (IH Hx) as [[? ?]|?]; [left | by right].
    split; [by apply list_elem_of_further | done].
Qed.

Lemma count_app (c : char) (l k : str) :
  count c (l ++ k) = count c l + count c k.
Proof. unfold count. rewrite filter_app, length_app. lia. Qed.

Lemma replace_body_ok (c : char) (t l : str) :
  body_ok t -> body_ok l -> body_ok (replace c t l).
Proof.
  intros Ht Hl. induction Hl as [|x l Hx _ IH]; [constructor|].
  rewrite replace_cons. apply Forall_app. split; [|done].
  case_decide; [done | by constructor].
Qed.

Lemma fix_line_app (body term rest : str) :
  ends_line term rest -> fix_line (body ++ term) = fix_line body ++ term.
Proof.
  intros Hterm.
  assert (Hq : dquote ∉ term) by (by eapply ends_line_no_quote).
  unfold fix_line. rewrite count_app.
  rewrite (proj2 (count_zero_iff dquote term) Hq), Z.add_0_r.
  destruct (count dquote body mod 2 =? 1); [|done].
  by rewrite replace_app, (replace_absent _ _ term).
Qed.

Lemma fix_line_body_ok (body : str) : body_ok body -> body_ok (fix_line body).
Proof.
  intros Hb. unfold fix_line.
  destruct (count dquote body mod 2 =? 1); [|done].
  apply replace_body_ok; [by repeat constructor | done].
Qed.

Lemma fix_line_head (ln : str) :
  head (fix_line ln) = Some 10%N -> head ln = Some 10%N.
Proof.
  unfold fix_line. destruct (count dquote ln mod 2 =? 1); [|done].
  destruct ln as [|x ln]; [done|]. rewrite replace_cons.
  case_decide; [done|]. by intros [= ->].
Qed.

Lemma fix_line_nonempty (ln : str) : ln <> [] -> fix_line ln <> [].
Proof.
  unfold fix_line. destruct (count dquote ln mod 2 =? 1); [|done].
  destruct ln as [|x ln]; [done|]. intros _. rewrite replace_cons.
  by case_decide.
Qed.

(** A function that works on one line at a time, leaves the end of the
    line alone and makes of a line neither nothing nor a boundary. *)
Section Linewise.
Variable f : str -> str.
Hypothesis f_app : forall body term rest,
  ends_line term rest -> f (body ++ term) = f body ++ term.
Hypothesis f_body_ok : forall body, body_ok body -> body_ok (f body).
Hypothesis f_nonempty : forall ln, ln <> [] -> f ln <> [].
Hypothesis f_head : forall ln, head (f ln) = Some 10%N -> head ln = Some 10%N.

Lemma linewise_head (s : str) :
  head (concat (f <$> splitlines true s)) = Some 10%N ->
  head s = Some 10%N.
Proof.
  pose proof (concat_splitlines s) as Hcat.
  pose proof (splitlines_nonempty s) as Hne.
  destruct (splitlines true s) as [|ln lines]; [done|].
  apply Forall_cons in Hne as [Hln _].
  rewrite fmap_cons. simpl in *. rewrite <- Hcat.
  pose proof (f_nonempty ln Hln).
  destruct (f ln) as [|x l] eqn:Hfix; [done|]. simpl.
  intros Hx. assert (Hh : head (f ln) = Some 10%N) by by rewrite Hfix.
  apply f_head in Hh. by destruct ln.
Qed.

(** The lines it makes, joined and split again, are the lines it made. *)
Lemma splitlines_linewise (s : str) :
  splitlines true (concat (f <$> splitlines true s))
  = f <$> splitlines true s.
Proof.
  induction s as [s Hs|body term rest Hb Ht IH] using lines_ind.
  - rewrite (splitlines_body s Hs). destruct s as [|c s]; [done|].
    simpl. rewrite app_nil_r.
    rewrite (splitlines_body _ (f_body_ok _ Hs)).
    pose proof (f_nonempty (c :: s) ltac:(done)).
    by destruct (f (c :: s)).
  - rewrite (splitlines_line body term rest Hb Ht). rewrite fmap_cons.
    simpl concat.
    rewrite (f_app body term rest Ht), <- app_assoc.
    rewrite splitlines_line, IH; [done | by apply f_body_ok |].
    destruct Ht as [->|(c & -> & Hc & Hnot)]; [by left|].
    right. exists c. repeat split; try done.
    intros [-> Hhead]. apply Hnot. split; [done|].
    by apply linewise_head.
Qed.

End Linewise.

Lemma splitlines_fixed_lines (s : str) :
  splitlines true (concat (fix_line <$> splitlines true s))
  = fix_line <$> splitlines true s.
Proof.
  apply splitlines_linewise.
  - intros body term rest. apply fix_line_app.
  - apply fix_line_body_ok.
  - apply fix_line_nonempty.
  - apply fix_line_head.
Qed.

Lemma concat_replace (c : char) (t : str) (ls : list str) :
  concat (replace c t <$> ls) = replace c t (concat ls).
Proof.
  induction ls as [|l ls IH]; [done|].
  rewrite fmap_cons. simpl. by rewrite IH, replace_app.
Qed.

(** Replacing a character that is no line boundary by a non-empty string
    without line boundaries changes the lines one by one. *)
Lemma splitlines_replace (c : char) (t s : str) :
  islinebreak c = false -> body_ok t -> t <> [] ->
  splitlines true (replace c t s) = replace c t <$> splitlines true s.
Proof.
  intros Hc Ht Hne.
  rewrite <- (concat_splitlines s) at 1. rewrite <- concat_replace.
  apply splitlines_linewise.
  - intros body term rest Hterm.
    rewrite replace_app, (replace_absent c t term); [done|].
    by eapply ends_line_no_quote.
  - intros body. by apply replace_body_ok.
  - intros [|x ln]; [done|]. intros _. rewrite replace_cons.
    case_decide; [by destruct t | done].
  - intros [|x ln]; [done|]. rewrite replace_cons.
    case_decide.
    + destruct t as [|y t]; [done|]. simpl. intros [= ->].
      apply Forall_cons in Ht as [Hy _]. by vm_compute in Hy.
    + done.
Qed.

Lemma splitlines_straighten (text : str) :
  splitlines true (straighten text) = straighten <$> splitlines true text.
Proof.
  unfold straighten.
  rewrite !splitlines_replace by (done || by repeat constructor).
  rewrite <- !list_fmap_compose. reflexivity.
Qed.

Lemma fix_line_even (ln : str) : count dquote (fix_line ln) mod 2 = 0.
Proof.
  unfold fix_line. destruct (Z.eqb_spec (count dquote ln mod 2) 1) as [_|Hne].
  - rewrite (proj2 (count_zero_iff dquote _)); [done|].
    intros Hin. apply replace_elem in Hin as [[_ ?]|Hin]; [done|].
    refute_elem Hin.
  - pose proof (Z.mod_pos_bound (count dquote ln) 2 ltac:(lia)). lia.
Qed.

Lemma normalize_text_lines (text : str) :
  normalize_text text
  = concat (fix_line <$> splitlines true (straighten text)).
Proof. reflexivity. Qed.

Lemma straighten_clean (text : str) :
  Forall (fun c => c ∉ text) [8220; 8221; 8216; 8217]%N ->
  straighten text = text.
Proof.
  intros H. unfold straighten.
  apply Forall_cons in H as [H1 H]. apply Forall_cons in H as [H2 H].
  apply Forall_cons in H as [H3 H]. apply Forall_cons in H as [H4 _].
  rewrite (replace_absent 8220%N _ text) by done.
  rewrite (replace_absent 8221%N _ text) by done.
  rewrite (replace_absent 8216%N _ text) by done.
  by rewrite (replace_absent 8217%N _ text).
Qed.

Lemma straighten_no_curly (text : str) (c : char) :
  c ∈ [8220; 8221; 8216; 8217]%N -> c ∉ straighten text.
Proof.
  intros Hc Hin. unfold straighten in Hin. revert Hc Hin.
  rewrite !elem_of_cons, elem_of_nil.
  intros [->|[->|[->|[->|[]]]]] Hin;
    (apply replace_elem in Hin as [[Hin H4]|Hin]; [|refute_elem Hin]);
    (apply replace_elem in Hin as [[Hin H3]|Hin]; [|refute_elem Hin]);
    (apply replace_elem in Hin as [[Hin H2]|Hin]; [|refute_elem Hin]);
    (apply replace_elem in Hin as [[Hin H1]|Hin]; [|refute_elem Hin]);
    done.
Qed.

Lemma elem_of_concat {A} (x : A) (ls : list (list A)) :
  x ∈ concat ls <-> exists l, x ∈ l /\ l ∈ ls.
Proof.
  induction ls as [|k ls IH]; simpl.
  - split; [by intros ?%elem_of_nil | by intros (l & _ & ?%elem_of_nil)].
  - rewrite elem_of_app, IH. split.
    + intros [?|(l & ? & ?)];
        [exists k; split; [done | apply list_elem_of_here]
        | exists l; split; [done | by apply list_elem_of_further]].
    + intros (l & Hx & [->|Hl]%elem_of_cons); [by left|].
      right. by exists l.
Qed.

Lemma normalize_text_elem (text : str) (x : char) :
  x ∈ normalize_text text -> x ∈ straighten text \/ x = 39%N.
Proof.
  rewrite normalize_text_lines. intros Hin.
  apply elem_of_concat in Hin as (fixed & Hx & Hfixed).
  apply list_elem_of_fmap in Hfixed as (ln & -> & Hln).
  assert (Hxl : x ∈ ln \/ x = 39%N).
  { unfold fix_line in Hx. destruct (count dquote ln mod 2 =? 1); [|by left].
    apply replace_elem in Hx as [[? _]|Hx]; [by left | right].
    change (lit "''") with [39%N; 39%N] in Hx.
    revert Hx. rewrite !elem_of_cons, elem_of_nil. by intros [?|[?|[]]]. }
  destruct Hxl as [Hxl|?]; [left | by right].
  rewrite <- (concat_splitlines (straighten text)).
  apply elem_of_concat. by exists ln.
Qed.

Lemma splitlines_single (s : str) :
  Forall (fun ln => splitlines true ln = [ln]) (splitlines true s).
Proof.
  induction s as [s Hs|body term rest Hb Ht IH] using lines_ind.
  - rewrite (splitlines_body s Hs). destruct s as [|c s]; [constructor|].
    constructor; [|constructor]. by rewrite (splitlines_body _ Hs).
  - rewrite (splitlines_line body term rest Hb Ht). constructor; [|done].
    assert (Ht' : ends_line term []).
    { destruct Ht as [->|(c & -> & Hc & _)]; [by left|].
      right. exists c. repeat split; try done. by intros [_ ?]. }
    pose proof (splitlines_line body term [] Hb Ht') as H.
    by rewrite app_nil_r in H.
Qed.

Lemma normalize_text_line (ln : str) :
  splitlines true ln = [ln] -> normalize_text ln = fix_line (straighten ln).
Proof.
  intros Hln. rewrite normalize_text_lines, splitlines_straighten, Hln.
  simpl. by rewrite app_nil_r.
Qed.

Lemma normalize_text_splitlines (text : str) :
  splitlines true (normalize_text text)
  = normalize_text <$> splitlines true text.
Proof.
  rewrite normalize_text_lines, splitlines_fixed_lines, splitlines_straighten.
  rewrite <- list_fmap_compose.
  apply Forall_fmap_ext_1. eapply Forall_impl; [apply splitlines_single|].
  intros ln Hln. simpl. by rewrite normalize_text_line.
Qed.

Lemma normalize_text_even (text : str) :
  Forall (fun ln => count dquote ln mod 2 = 0)
    (splitlines true (normalize_text text)).
Proof.
  rewrite normalize_text_lines, splitlines_fixed_lines.
  apply Forall_fmap, Forall_forall. intros ln _. apply fix_line_even.
Qed.

Lemma normalize_text_clean (text : str) :
  Forall (fun c => c ∉ text) [8220; 8221; 8216; 8217]%N ->
  Forall (fun ln => count dquote ln mod 2 = 0) (splitlines true text) ->
  normalize_text text = text.
Proof.
  intros Hcurly Heven.
  rewrite normalize_text_lines, straighten_clean by done.
  rewrite <- (concat_splitlines text) at 2. f_equal.
  rewrite <- (list_fmap_id (splitlines true text)) at 2.
  apply Forall_fmap_ext_1. eapply Forall_impl; [exact Heven|].
  intros ln Hln. unfold fix_line. simpl. by rewrite Hln.
Qed.

Lemma normalize_text_no_curly (text : str) (c : char) :
  c ∈ [8220; 8221; 8216; 8217]%N -> c ∉ normalize_text text.
Proof.
  intros Hc Hin. apply normalize_text_elem in Hin as [Hin| ->].
  - by apply (straighten_no_curly text c).
  - refute_elem Hc.
Qed.

(** X19. Joining the lines that [splitlines(keepends=True)] gives yields
    the text again, so the repair, which works line by line, loses no
    line: the lines of the repaired text are the repaired lines of the
    text, one for one and in order. *)
Theorem repair_is_line_by_line (text : str) :
  concat (splitlines true text) = text /\
  splitlines true (normalize_text text)
  = normalize_text <$> splitlines true text /\
  length (splitlines true (normalize_text text))
  = length (splitlines true text).
Proof.
  split; [apply concat_splitlines|].
  rewrite normalize_text_splitlines. split; [done|]. apply length_fmap.
Qed.

(** X20. Every line of the repaired text holds an even number of double
    quotes. *)
Theorem repaired_lines_have_even_quotes (text : str) :
  Forall (fun ln => count dquote ln mod 2 = 0)
    (splitlines true (normalize_text text)).
Proof. apply normalize_text_even. Qed.

(** X21. No curly quote, single or double, is left in the repaired
    text. *)
Theorem repaired_text_has_no_curly_quotes (text : str) :
  Forall (fun c => c ∉ normalize_text text) [8220; 8221; 8216; 8217]%N.
Proof.
  apply Forall_forall. intros c Hc. by apply normalize_text_no_curly.
Qed.

(** X22. A text without curly quotes in which every line holds an even
    number of double quotes is not changed by the repair. *)
Theorem well_quoted_text_unchanged (text : str) :
  Forall (fun c => c ∉ text) [8220; 8221; 8216; 8217]%N ->
  Forall (fun ln => count dquote ln mod 2 = 0) (splitlines true text) ->
  normalize_text text = text.
Proof. apply normalize_text_clean. Qed.

(** X23. Repairing a repaired text changes nothing. *)
Theorem repair_is_idempotent (text : str) :
  normalize_text (normalize_text text) = normalize_text text.
Proof.
  apply normalize_text_clean; [|apply normalize_text_even].
  apply Forall_forall. intros c Hc. by apply normalize_text_no_curly.
Qed.

(** ** The fallback chain, attempt by attempt *)

Section RobustExtras.
Context {X F : Type}.
Variable pd_read_csv : source -> str -> keywords -> res X F.
Variable read_text : res X str.

(** X24. [robust_read_csv] returns the frame of the first of its four
    attempts that succeeds: the attempts before it have raised, and what
    the attempts after it would do plays no part. *)
Theorem first_successful_attempt_returned (re_escape : str -> str)
    (head_lines : list str) (sep : str) (tried later : list (res X F))
    (df : F) :
  let delim := default 44%N (_detect_delimiter head_lines default_candidates) in
  dict_get delim regex_table = Some sep ->
  [ pd_read_csv Path [delim] Defaults;
    pd_read_csv Path [delim] Quote_escape;
    pd_read_csv Path sep Header_infer;
    raw ← read_text; pd_read_csv (StringIO (normalize_text raw)) sep Defaults ]
  = tried ++ Return df :: later ->
  Forall (fun a => exists e, a = Raise e) tried ->
  robust_read_csv pd_read_csv read_text re_escape head_lines = Return df.
Proof.
  intros delim Hsep Hsplit Htried. unfold robust_read_csv. fold delim.
  rewrite Hsep.
  destruct tried as [|a1 tried]; simpl in Hsplit.
  { injection Hsplit as -> _. done. }
  apply Forall_cons in Htried as [[e1 ->] Htried].
  injection Hsplit as -> Hsplit.
  destruct tried as [|a2 tried]; simpl in Hsplit.
  { injection Hsplit as -> _. done. }
  apply Forall_cons in Htried as [[e2 ->] Htried].
  injection Hsplit as -> Hsplit.
  destruct tried as [|a3 tried]; simpl in Hsplit.
  { injection Hsplit as -> _. done. }
  apply Forall_cons in Htried as [[e3 ->] Htried].
  injection Hsplit as -> Hsplit. simpl.
  destruct tried as [|a4 tried]; simpl in Hsplit.
  { injection Hsplit as -> _. done. }
  injection Hsplit as _ Hsplit. by destruct tried.
Qed.

(** X25. The guessed delimiter always has its entry in the table of
    regular expressions, so the third attempt is always made and
    [re.escape] is never called: the outcome does not depend on it. *)
Theorem escape_fallback_never_used (re_escape re_escape' : str -> str)
    (head_lines : list str) :
  is_Some (dict_get
             (default 44%N (_detect_delimiter head_lines default_candidates))
             regex_table) /\
  robust_read_csv pd_read_csv read_text re_escape head_lines
  = robust_read_csv pd_read_csv read_text re_escape' head_lines.
Proof.
  pose proof (regex_sep_of_candidate _ (delimiter_guess_candidate head_lines))
    as Hsep.
  split; [done|]. destruct Hsep as [sep Hsep].
  unfold robust_read_csv. by rewrite Hsep.
Qed.

End RobustExtras.

(** ** Page processing *)

Section PagesExtras.
Context {P : Type}.
Variable rotate : Z -> P -> P.

Lemma add_pages_spec (page_fn : P -> Z -> P) (pages : list P) :
  forall (i : Z) (writer : list P),
    add_pages page_fn i pages writer
    = writer ++ imap (fun k page => page_fn page (i + Z.of_nat k)) pages.
Proof.
  induction pages as [|page pages IH]; intros i writer; simpl.
  - by rewrite app_nil_r.
  - rewrite IH, <- app_assoc, Z.add_0_r. simpl. do 2 f_equal.
    apply imap_ext. intros k p _. simpl. f_equal. lia.
Qed.

(** X26. [process_pdf_pages] writes one page for each page read, in the
    same order, and page number [i], counted from 0, is what [page_fn]
    made of that page and [i]; with [example_page_op] the pages at odd
    [i] are written rotated by 90 and the others as they were read. *)
Theorem pages_processed_in_order (page_fn : P -> Z -> P) (pages : list P) :
  length (process_pdf_pages pages page_fn) = length pages /\
  (forall (i : nat) page,
     pages !! i = Some page ->
     process_pdf_pages pages page_fn !! i = Some (page_fn page (Z.of_nat i))) /\
  (forall (i : nat) page,
     pages !! i = Some page ->
     process_pdf_pages pages (example_page_op rotate) !! i
     = Some (if Nat.odd i then rotate 90 page else page)).
Proof.
  assert (H : forall fn (i : nat) page,
            pages !! i = Some page ->
            process_pdf_pages pages fn !! i = Some (fn page (Z.of_nat i))).
  { intros fn i page Hi. unfold process_pdf_pages.
    rewrite add_pages_spec. simpl. by rewrite list_lookup_imap, Hi. }
  split; [|split; [apply H|]].
  - unfold process_pdf_pages. rewrite add_pages_spec. simpl.
    apply length_imap.
  - intros i page Hi. rewrite (H _ i page Hi). f_equal.
    unfold example_page_op.
    destruct (Nat.odd i) eqn:Hodd.
    + apply Nat.odd_spec in Hodd as [k ->].
      replace (Z.of_nat (2 * k + 1)) with (1 + Z.of_nat k * 2) by lia.
      by rewrite Z.mod_add.
    + rewrite <- Nat.negb_even, negb_false_iff in Hodd.
      apply Nat.even_spec in Hodd as [k ->].
      replace (Z.of_nat (2 * k)) with (0 + Z.of_nat k * 2) by lia.
      by rewrite Z.mod_add.
Qed.

End PagesExtras.

(** ** The further properties at concrete inputs *)

Lemma header_names_kept_and_padded_witness :
  Z.of_nat (length (normalize_header [lit "id"] 3)) = 3 /\
  normalize_header [lit "id"] 3 !! 0%nat = Some (lit "id") /\
  normalize_header [lit "id"] 3 !! 2%nat = Some (lit "__placeholder_1").
Proof.
  destruct (header_names_kept_and_padded [lit "id"] 3 ltac:(lia))
    as (Hlen & Hkept & Hpad).
  split; [exact Hlen|]. split.
  - apply Hkept; [lia | reflexivity].
  - apply (Hpad 2%nat); simpl; lia.
Defined.

Lemma rows_stay_in_place_witness :
  exists df out,
    force_width (X:=unit) ragged_rows 3 None None = Return (df, out) /\
    length (data df) = 3%nat /\
    data df !! 2%nat = Some [lit "a"; lit "b"; lit "c"].
Proof.
  destruct (rows_stay_in_place (X:=unit) [lit "h1"; lit "h2"; lit "h3"]
              [ [lit "a"; lit "b"; lit "c"; lit "d"]; [lit "a"];
                [lit "a"; lit "b"; lit "c"] ] 3 None None ltac:(lia))
    as (df & out & Hdf & _ & Hlen & Hrows).
  exists df, out. split; [exact Hdf|]. split; [exact Hlen|].
  destruct (Hrows 2%nat [lit "a"; lit "b"; lit "c"] eq_refl)
    as (kept & Hkept & Hexact & _).
  rewrite Hkept. f_equal. apply Hexact. reflexivity.
Defined.

Lemma long_row_merge_column_witness :
  exists kept old merged (k : nat),
    [[lit "a"; lit "b"; lit "c,c"]] !! 0%nat = Some kept /\
    [lit "a"; lit "b"; lit "c"; lit ""] !! 2%nat = Some old /\
    kept !! 2%nat = Some merged /\
    merged ++ replicate k 44%N = old ++ lit "," ++ lit "c,".
Proof.
  apply (long_row_merge_column (X:=unit) [lit "h1"; lit "h2"; lit "h3"]
           [[lit "a"; lit "b"; lit "c"; lit ""]] 3 None None
           {| columns := [lit "h1"; lit "h2"; lit "h3"];
              data := [[lit "a"; lit "b"; lit "c,c"]] |}
           [Loaded 1 3 None; Merged_rows 3 1] 0
           [lit "a"; lit "b"; lit "c"; lit ""]);
    [lia | reflexivity | reflexivity | simpl; lia].
Defined.

Lemma report_counts_rows_witness :
  exists df,
    force_width (X:=unit) ragged_rows 3 None None =
    Return (df, [Loaded 3 3 None; Merged_rows 3 1; Padded_rows 3 1]).
Proof.
  apply (report_counts_rows (X:=unit) [lit "h1"; lit "h2"; lit "h3"]
           [ [lit "a"; lit "b"; lit "c"; lit "d"]; [lit "a"];
             [lit "a"; lit "b"; lit "c"] ] 3 None None).
  lia.
Defined.

Lemma unknown_merge_target_ignored_witness :
  force_width (X:=unit) ragged_rows 2 (Some (lit "h3")) None
  = force_width (X:=unit) ragged_rows 2 None None.
Proof.
  apply (unknown_merge_target_ignored (X:=unit) ragged_rows 2 (lit "h3") None).
  right. apply (proj1 (bool_decide_eq_false _)). vm_compute. reflexivity.
Defined.

(** A file that cannot be read as UTF-8 and reads as [ragged_rows] in
    any other encoding. *)
Lemma first_readable_encoding_used_witness :
  load_csv_force_width
    (fun enc => if decide (enc = lit "utf-8") then Raise tt
                else Return ragged_rows)
    3 None ([lit "utf-8"] ++ lit "latin1" :: [])
  = force_width ragged_rows 3 None None.
Proof.
  apply (first_readable_encoding_used
           (fun enc => if decide (enc = lit "utf-8") then Raise tt
                       else Return ragged_rows)
           [lit "utf-8"] [] (lit "latin1") ragged_rows 3 None).
  - repeat constructor. by exists tt.
  - reflexivity.
Defined.

Lemma unreadable_file_runtime_error_witness :
  load_csv_force_width (X:=unit) (fun _ => Raise tt) 3 None
    [lit "utf-8"; lit "latin1"]
  = Raise (RuntimeError (Could_not_read [lit "utf-8"; lit "latin1"] (Some tt))
             None).
Proof.
  apply (unreadable_file_runtime_error (X:=unit) (fun _ => Raise tt)
           [lit "utf-8"; lit "latin1"] 3 None).
  repeat constructor; by exists tt.
Defined.

Lemma zero_width_rows_witness :
  force_width (X:=unit) [[lit "h"]; []; []] 0 None None
    = Return ({| columns := []; data := [[]; []] |}, [Loaded 2 0 None]) /\
  force_width (X:=unit) [[lit "h"]; []; [lit "x"]] 0 None None
    = Raise IndexError.
Proof.
  split.
  - apply (proj1 (zero_width_rows (X:=unit) [lit "h"] [[]; []] None None)).
    repeat constructor.
  - apply (proj2 (zero_width_rows (X:=unit) [lit "h"] [[]; [lit "x"]] None None)).
    apply Exists_cons_tl, Exists_cons_hd. discriminate.
Defined.

(** A codec that knows UTF-16 only and reads the bytes as the text [hi]. *)
Lemma bom_input_decoded_as_utf16_witness :
  _decode_text_safely
    (fun enc (_ : bool) (_ : list byte) =>
       if decide (enc = lit "utf-16") then Return (lit "hi") else Raise tt)
    [xff; xfe; x68; x00; x69; x00] default_encodings
  = Return (lit "hi").
Proof.
  apply (bom_input_decoded_as_utf16
           (fun enc (_ : bool) (_ : list byte) =>
              if decide (enc = lit "utf-16") then Return (lit "hi")
              else Raise tt)
           [xff; xfe; x68; x00; x69; x00] [x68; x00; x69; x00] (lit "hi")
           default_encodings).
  - left. reflexivity.
  - reflexivity.
Defined.

Lemma first_decoding_encoding_used_witness :
  _decode_text_safely latin1_only [x61; x00; x62]
    ([lit "utf-8-sig"; lit "utf-8"; lit "cp1252"] ++ lit "latin1" :: [])
  = Return (lit "ab").
Proof.
  apply (first_decoding_encoding_used latin1_only [x61; x00; x62]
           [lit "utf-8-sig"; lit "utf-8"; lit "cp1252"] [] (lit "latin1")
           [97; 0; 98]%N).
  - left. reflexivity.
  - repeat constructor; by exists tt.
  - reflexivity.
Defined.

Lemma undecodable_bytes_runtime_error_witness :
  _decode_text_safely latin1_only [xff; xfe; x61] [lit "utf-8"; lit "cp1252"]
  = Raise (RuntimeError
             (Could_not_decode [lit "utf-8"; lit "cp1252"] (Some tt)) None).
Proof.
  apply (undecodable_bytes_runtime_error latin1_only [xff; xfe; x61]
           [lit "utf-8"; lit "cp1252"]).
  - right. by exists tt.
  - repeat constructor; by exists tt.
Defined.

Lemma mode_is_most_frequent_witness :
  (mode_of [3; 1; 3; 2] ∈ [3; 1; 3; 2]) /\
  forall c, (occurrences c [3; 1; 3; 2]%Z
             <= occurrences (mode_of [3; 1; 3; 2]%Z) [3; 1; 3; 2]%Z)%nat.
Proof. apply (mode_is_most_frequent [3; 1; 3; 2]). discriminate. Defined.

Lemma greatest_modal_count_wins_witness :
  _detect_delimiter [lit "a;b;c"; lit "d;e,f"; lit ""] default_candidates
    = Some 59%N /\
  _detect_delim_from_text (lit "a;b;c" ++ [10%N] ++ lit "d;e,f")
    default_candidates = 59%N.
Proof.
  destruct (greatest_modal_count_wins [lit "a;b;c"; lit "d;e,f"] 59%N)
    as [Hlist Htext].
  - discriminate.
  - by apply (bool_decide_unpack _).
  - intros d' Hd' Hne. revert Hd' Hne. unfold default_candidates.
    rewrite !elem_of_cons, elem_of_nil.
    intros [->|[->|[->|[->|[]]]]] Hne; try done; by vm_compute.
  - split; [by apply Hlist | by apply Htext].
Defined.

Lemma regular_delimiter_detected_witness :
  _detect_delimiter [lit "a|b|c"; lit " "; lit "d|e|f"] default_candidates
    = Some 124%N /\
  _detect_delim_from_text (lit "a|b|c" ++ [10%N] ++ lit "d|e|f")
    default_candidates = 124%N.
Proof.
  destruct (regular_delimiter_detected [lit "a|b|c"; lit "d|e|f"] 124%N 2)
    as [Hlist Htext].
  - discriminate.
  - by apply (bool_decide_unpack _).
  - lia.
  - repeat constructor; try reflexivity;
      (intros d' Hd' Hne; revert Hd' Hne; unfold default_candidates;
       rewrite !elem_of_cons, elem_of_nil;
       intros [->|[->|[->|[->|[]]]]] Hne; try done; by vm_compute).
  - split; [by apply Hlist | by apply Htext].
Defined.

Lemma well_quoted_text_unchanged_witness :
  normalize_text (lit "a,b" ++ [10%N] ++ [dquote] ++ lit "c,d" ++ [dquote])
  = lit "a,b" ++ [10%N] ++ [dquote] ++ lit "c,d" ++ [dquote].
Proof.
  apply (well_quoted_text_unchanged
           (lit "a,b" ++ [10%N] ++ [dquote] ++ lit "c,d" ++ [dquote])).
  - repeat constructor; apply (proj1 (bool_decide_eq_false _)); by vm_compute.
  - repeat constructor.
Defined.

Lemma first_successful_attempt_returned_witness :
  robust_read_csv
    (fun (src : source) (_ : str) (_ : keywords) =>
       match src with Path => Raise tt | StringIO text => Return text end)
    (Return (lit "a,b")) (fun s => s) [lit "a,b"]
  = Return (lit "a,b").
Proof.
  apply (first_successful_attempt_returned
           (fun (src : source) (_ : str) (_ : keywords) =>
              match src with Path => Raise tt | StringIO text => Return text end)
           (Return (lit "a,b")) (fun s => s) [lit "a,b"]
           (lit "," ++ outside_quotes)
           [Raise tt; Raise tt; Raise tt] [] (lit "a,b")).
  - reflexivity.
  - reflexivity.
  - repeat constructor; by exists tt.
Defined.

Lemma pages_processed_in_order_witness :
  process_pdf_pages [0; 0; 0] (example_page_op (fun angle page => page + angle))
  = [0; 90; 0].
Proof.
  destruct (pages_processed_in_order (fun angle page => page + angle)
              (example_page_op (fun angle page => page + angle)) [0; 0; 0])
    as (Hlen & _ & Hpage).
  apply list_eq. intros i.
  destruct i as [|[|[|i]]];
    [apply (Hpage 0%nat 0 eq_refl) | apply (Hpage 1%nat 0 eq_refl)
    | apply (Hpage 2%nat 0 eq_refl) |].
  rewrite !lookup_ge_None_2; [done | simpl; lia | rewrite Hlen; simpl; lia].
Defined.
